(** * GithubAPI backend: the multi-file commit of [updateFiles]

    A shallow embedding of [src/app/backends/github_api.js]: the
    constructor, the read path [readFile] and [listFiles], [request],
    the blob upload [uploadBlob], the tree merge [updateTree] and the
    commit orchestration [updateFiles], run against a model of the remote
    Git Data API.

    Modelling conventions.
    - A promise chain is a computation in a state-and-error monad over a
      [world]: the JavaScript heap of file objects plus the remote
      repository.  Of the interleavings of concurrent promises the model
      takes the one in which a member of a [Promise.all] runs to its end
      before the next one starts; every member runs (its requests are in
      flight whatever the others do) and the first rejection wins.  An
      exception thrown before a promise exists and a rejected promise are
      both the failure of the computation.
    - The receiver [this] is explicit.  A method called on the instance
      and an arrow function inside it have the instance as [this]; a
      [function] expression and a method handed over as a value
      ([.then(this.getBranch)]) are called by the promise with [this]
      undefined (class code is strict), and reading a property of
      undefined throws a [TypeError] before any argument is evaluated.
    - The identifiers [uploads], [base] and [branch], which the method
      [updateFiles] uses without declaring them, are bindings of the
      global scope that may be missing: reading a missing one throws a
      [ReferenceError].  Line 80 rebinds the parameter [files] to a new
      array, so the argument is never read.
    - A request is named by its endpoint, the repository url and branch
      it is sent to, and its body; the headers are the subject of
      [ajax_settings].  The remote store answers like the Git Data API:
      objects are immutable and only added, a commit id stands for its
      root tree where a tree is asked for, a tree created on a
      [base_tree] keeps the entries of the base that the request does
      not replace, and a ref update without [force] is refused unless it
      is a fast-forward.  The world holds one repository; a request for
      another url finds nothing.
    - A JavaScript object used as a map ([fileTree], [added], headers)
      is an association list in insertion order.  [for ... in] visits the
      keys that are array indices first, in ascending order, then the
      others in insertion order.  In [updateTree] a property read falls
      back on the members of [Object.prototype].  The merge into a value
      that is not a plain object (an inherited built-in, a file object
      whose [file] flag is not set) depends on properties that the source
      does not define; it is followed through the tree read of line 142
      and ends there with [Unfollowed].  In the loop of
      [updateFiles] path segments are taken outside the names of
      [Object.prototype] and of the fields of the file objects.
    - An object id is the position of the object in the store. *)

From Stdlib Require Import String Ascii List Bool Arith NArith Lia Permutation.
Import ListNotations.
Open Scope string_scope.
Open Scope list_scope.

(** ** Data model *)

Definition object_id := nat.

(** A file object as the backend reads and writes it.  [file_base64]
    is what the method [base64] returns, for a file object that has
    one. *)
Record PendingFile := mkFile {
  file_path : string;
  file_content : string;
  file_base64 : option string;
  file_sha : option object_id;
  file_uploaded : bool;
  file_upload : bool;
  file_file : bool
}.

(** One child of a tree object of the store: [{path, mode, type, sha}]. *)
Record TreeEntry := mkEntry {
  entry_path : string;
  entry_mode : string;
  entry_type : string;
  entry_sha : object_id
}.

(** What [updateTree] resolves to:
    [{path, mode: "040000", type: "tree", sha, parentSha}]. *)
Record ChangeTree := mkChange {
  change_path : string;
  change_mode : string;
  change_type : string;
  change_sha : object_id;
  change_parentSha : option object_id
}.

Set Warnings "-register-all".

(** The nested object [fileTree].  A leaf is a file object, a reference
    into the heap, where its fields are; properties assigned to a file
    object by a later, longer path stay on it. *)
Inductive node :=
| File (ref : nat) (props : list (string * node))
| Dir (props : list (string * node)).

Definition props_of (n : node) : list (string * node) :=
  match n with File _ ps => ps | Dir ps => ps end.

Definition with_props (n : node) (ps : list (string * node)) : node :=
  match n with File r _ => File r ps | Dir _ => Dir ps end.

(** The value of [fileOrDir.sha]: an object id, [undefined], or the
    object that a key ["sha"] of a nested object is bound to. *)
Inductive sha_value :=
| ShaId (s : object_id)
| ShaUndefined
| ShaObject (n : node).

(** A settled member of the array [updates]: an object literal of one
    of the two loops, or what a nested [updateTree] resolved to. *)
Inductive update :=
| Entry (path mode type : string) (sha : sha_value)
| Subtree (c : ChangeTree).

Definition update_path (u : update) : string :=
  match u with
  | Entry path _ _ _ => path
  | Subtree c => change_path c
  end.

(** ** The instance *)

Definition ENDPOINT : string := "https://api.github.com/".

Record Config := mkConfig { config_repo : string; config_branch : string }.

Record Credentials := mkCredentials { github_access_token : string }.

(** The fields that the constructor sets. *)
Record GithubAPI := mkGithubAPI {
  api_base : string;
  api_branch : string;
  api_token : string
}.

(** [constructor(config, credentials)], lines 33-37. *)
Definition constructor (config : Config) (credentials : Credentials) : GithubAPI :=
  mkGithubAPI (String.append ENDPOINT (String.append "repos/" (config_repo config)))
              (config_branch config)
              (github_access_token credentials).

(** The [this] of a [function] expression, or of a method handed over as
    a value, when the promise calls it. *)
Definition undefined : option GithubAPI := None.

(** ** The remote repository *)

(** The [content] of a blob creation, sent with [encoding: "base64"]:
    [Base64.encode(file.content)], or the text that [file.base64()]
    returned. *)
Inductive base64 :=
| Encode (content : string)
| Text (data : string).

Inductive object :=
| Blob (content : base64)
| Tree (entries : list TreeEntry)
| Commit (message : string) (tree : object_id) (parents : list (option object_id)).

(** A request: the url that it is sent to, given by the repository url
    ([this.base]) and, for a branch or a ref, the branch name, and the
    body. *)
Inductive call :=
| GetBranch (base branch : string)
| GetTree (base : string) (s : object_id)
| PostBlob (base : string) (content : base64)
| PostTree (base : string) (base_tree : option object_id) (tree : list update)
| PostCommit (base : string) (message : string) (tree : object_id)
             (parents : list (option object_id))
| PatchRef (base branch : string) (s : object_id) (force : bool).

Inductive response :=
| BranchData (commit_sha : object_id)
| TreeData (tree : list TreeEntry)
| Created (s : object_id)
| RefData (s : object_id).

(** How a computation fails: the errors of a request, the exceptions of
    the language, and the end of what the model follows. *)
Inductive error :=
| TransportError
| HttpError (status : nat)
| NotFastForward
| TypeError (property : string)
| ReferenceError (identifier : string)
| Unfollowed (value : string).

(** What happens to one request: it is served, it is lost, or another
    writer advances the branch just before it is served. *)
Inductive event := Served | Dropped | Raced.

Definition outcome := (error + response)%type.

Record world := mkWorld {
  heap : list PendingFile;
  repo_url : string;
  repo_branch : string;
  objects : list object;
  head : object_id;
  script : list event;
  log : list (call * outcome)
}.

Definition resp_sha (r : response) : object_id :=
  match r with
  | BranchData s | Created s | RefData s => s
  | TreeData _ => 0
  end.

Definition resp_tree (r : response) : list TreeEntry :=
  match r with TreeData es => es | _ => [] end.

(** The entries of the tree that [s] names; a commit id stands for its
    root tree. *)
Definition tree_entries (objs : list object) (s : object_id) : option (list TreeEntry) :=
  match nth_error objs s with
  | Some (Tree es) => Some es
  | Some (Commit _ t _) =>
      match nth_error objs t with Some (Tree es) => Some es | _ => None end
  | _ => None
  end.

Definition has_path (p : string) (es : list TreeEntry) : bool :=
  existsb (fun e => String.eqb (entry_path e) p) es.

(** Tree creation on a base: the entries given replace the base's entries
    of the same path, the other entries of the base are kept. *)
Definition overlay (base es : list TreeEntry) : list TreeEntry :=
  filter (fun b => negb (has_path (entry_path b) es)) base ++ es.

(** An entry of a tree creation as the store takes it: its [sha] must be
    an object id. *)
Definition stored_entry (u : update) : option TreeEntry :=
  match u with
  | Entry path mode type (ShaId s) => Some (mkEntry path mode type s)
  | Entry _ _ _ _ => None
  | Subtree c =>
      Some (mkEntry (change_path c) (change_mode c) (change_type c) (change_sha c))
  end.

Fixpoint stored_entries (us : list update) : option (list TreeEntry) :=
  match us with
  | [] => Some []
  | u :: rest =>
      match stored_entry u, stored_entries rest with
      | Some e, Some es => Some (e :: es)
      | _, _ => None
      end
  end.

(** Is [target] the commit [from] or one of its ancestors? *)
Fixpoint reaches (fuel : nat) (objs : list object) (from target : object_id) : bool :=
  if Nat.eqb from target then true
  else match fuel with
       | O => false
       | S n =>
           match nth_error objs from with
           | Some (Commit _ _ ps) =>
               existsb (fun p => match p with
                                 | Some q => reaches n objs q target
                                 | None => false
                                 end) ps
           | _ => false
           end
       end.

Definition is_commit (objs : list object) (s : object_id) : bool :=
  match nth_error objs s with Some (Commit _ _ _) => true | _ => false end.

Definition commit_tree (objs : list object) (s : object_id) : object_id :=
  match nth_error objs s with Some (Commit _ t _) => t | _ => 0 end.

(** The store's answer to a request, and the store after it. *)
Definition serve (r : call) (objs : list object) (hd : object_id)
  : outcome * list object * object_id :=
  match r with
  | GetBranch _ _ => (inr (BranchData hd), objs, hd)
  | GetTree _ s =>
      match tree_entries objs s with
      | Some es => (inr (TreeData es), objs, hd)
      | None => (inl (HttpError 404), objs, hd)
      end
  | PostBlob _ c => (inr (Created (List.length objs)), objs ++ [Blob c], hd)
  | PostTree _ base_tree us =>
      match stored_entries us, base_tree with
      | Some es, None => (inr (Created (List.length objs)), objs ++ [Tree es], hd)
      | Some es, Some b =>
          match tree_entries objs b with
          | Some bs => (inr (Created (List.length objs)), objs ++ [Tree (overlay bs es)], hd)
          | None => (inl (HttpError 422), objs, hd)
          end
      | None, _ => (inl (HttpError 422), objs, hd)
      end
  | PostCommit _ m t ps => (inr (Created (List.length objs)), objs ++ [Commit m t ps], hd)
  | PatchRef _ _ s force =>
      if negb (is_commit objs s) then (inl (HttpError 422), objs, hd)
      else if force || reaches (List.length objs) objs s hd
           then (inr (RefData s), objs, s)
           else (inl NotFastForward, objs, hd)
  end.

(** Another writer commits on top of the head and moves the branch. *)
Definition race (objs : list object) (hd : object_id) : list object * object_id :=
  (objs ++ [Commit "concurrent" (commit_tree objs hd) [Some hd]], List.length objs).

Definition call_base (r : call) : string :=
  match r with
  | GetBranch base _ | GetTree base _ | PostBlob base _ | PostTree base _ _
  | PostCommit base _ _ _ | PatchRef base _ _ _ => base
  end.

Definition call_branch (r : call) : option string :=
  match r with
  | GetBranch _ branch | PatchRef _ branch _ _ => Some branch
  | _ => None
  end.

(** Is the request sent to the repository of the world? *)
Definition addressed (r : call) (url branch : string) : bool :=
  String.eqb (call_base r) url &&
  match call_branch r with
  | Some b => String.eqb b branch
  | None => true
  end.

(** ** Promises as a state-and-error monad *)

Definition M (A : Type) : Type := world -> (error + A) * world.

Definition ret {A} (a : A) : M A := fun w => (inr a, w).

Definition throw {A} (e : error) : M A := fun w => (inl e, w).

Definition bind {A B} (m : M A) (k : A -> M B) : M B :=
  fun w => match m w with
           | (inr a, w') => k a w'
           | (inl e, w') => (inl e, w')
           end.

Notation "x <- m ;; k" := (bind m (fun x => k))
  (at level 100, m at next level, right associativity).

(** [Promise.all]: every member runs; the first rejection wins. *)
Fixpoint promise_all {A} (ms : list (M A)) : M (list A) :=
  fun w =>
    match ms with
    | [] => (inr [], w)
    | m :: rest =>
        match m w with
        | (inr a, w1) =>
            match promise_all rest w1 with
            | (inr l, w2) => (inr (a :: l), w2)
            | (inl e, w2) => (inl e, w2)
            end
        | (inl e, w1) => (inl e, snd (promise_all rest w1))
        end
    end.

(** [Ember.$.ajax(url, settings)]: one event of the script decides how the
    request fares; the exchange is logged. *)
Definition ajax (r : call) : M response :=
  fun w =>
    let ev := match script w with [] => Served | e :: _ => e end in
    let sc := tl (script w) in
    match ev with
    | Dropped =>
        (inl TransportError,
         mkWorld (heap w) (repo_url w) (repo_branch w) (objects w) (head w) sc
                 (log w ++ [(r, inl TransportError)]))
    | _ =>
        let '(objs, hd) := match ev with
                           | Raced => race (objects w) (head w)
                           | _ => (objects w, head w)
                           end in
        let '(out, objs', hd') :=
          if addressed r (repo_url w) (repo_branch w) then serve r objs hd
          else (inl (HttpError 404), objs, hd) in
        (out, mkWorld (heap w) (repo_url w) (repo_branch w) objs' hd' sc
                      (log w ++ [(r, out)]))
    end.

(** ** The JavaScript heap of file objects *)

Definition no_file : PendingFile := mkFile "" "" None None false false false.

Definition file_at (h : list PendingFile) (i : nat) : PendingFile :=
  nth i h no_file.

Fixpoint update_at (i : nat) (g : PendingFile -> PendingFile)
  (h : list PendingFile) {struct h} : list PendingFile :=
  match h, i with
  | [], _ => []
  | f :: h', O => g f :: h'
  | f :: h', S j => f :: update_at j g h'
  end.

Definition get_heap : M (list PendingFile) := fun w => (inr (heap w), w).

Definition modify_heap (g : list PendingFile -> list PendingFile) : M unit :=
  fun w => (inr tt, mkWorld (g (heap w)) (repo_url w) (repo_branch w) (objects w)
                            (head w) (script w) (log w)).

(** [file.sha = response.sha; file.uploaded = true]. *)
Definition mark_uploaded (s : object_id) (f : PendingFile) : PendingFile :=
  mkFile (file_path f) (file_content f) (file_base64 f) (Some s) true
         (file_upload f) (file_file f).

(** [file.file = true]. *)
Definition mark_file (f : PendingFile) : PendingFile :=
  mkFile (file_path f) (file_content f) (file_base64 f) (file_sha f)
         (file_uploaded f) (file_upload f) true.

(** ** Objects used as maps *)

Fixpoint get_prop {A} (k : string) (l : list (string * A)) : option A :=
  match l with
  | [] => None
  | (k', v) :: rest => if String.eqb k' k then Some v else get_prop k rest
  end.

(** [obj[k] = v]: an existing key keeps its place, a new one goes last. *)
Fixpoint set_prop {A} (k : string) (v : A) (l : list (string * A))
  : list (string * A) :=
  match l with
  | [] => [(k, v)]
  | (k', v') :: rest =>
      if String.eqb k' k then (k, v) :: rest else (k', v') :: set_prop k v rest
  end.

Definition keys {A} (l : list (string * A)) : list string := map fst l.

(** The names that every plain object inherits from [Object.prototype];
    each is bound to a function or an object, so it reads as true. *)
Definition object_prototype : list string :=
  ["constructor"; "toString"; "toLocaleString"; "valueOf"; "hasOwnProperty";
   "isPrototypeOf"; "propertyIsEnumerable"; "__proto__"; "__defineGetter__";
   "__defineSetter__"; "__lookupGetter__"; "__lookupSetter__"].

Definition inherited (k : string) : bool :=
  existsb (String.eqb k) object_prototype.

Definition digit (c : ascii) : option N :=
  let n := N_of_ascii c in
  if (48 <=? n)%N && (n <=? 57)%N then Some (n - 48)%N else None.

Fixpoint digits (s : string) (acc : N) : option N :=
  match s with
  | EmptyString => Some acc
  | String c rest =>
      match digit c with
      | Some d => digits rest (10 * acc + d)%N
      | None => None
      end
  end.

(** The array index that a key is, if it is one: a canonical decimal
    number below [2^32 - 1]. *)
Definition array_index (k : string) : option N :=
  match k with
  | EmptyString => None
  | String c rest =>
      if Ascii.eqb c "0"%char && negb (String.eqb rest "") then None
      else match digits k 0 with
           | Some n => if (n <? 4294967295)%N then Some n else None
           | None => None
           end
  end.

Fixpoint insert_index {A} (i : N) (x : A) (l : list (N * A)) : list (N * A) :=
  match l with
  | [] => [(i, x)]
  | (j, y) :: rest =>
      if (i <? j)%N then (i, x) :: l else (j, y) :: insert_index i x rest
  end.

(** The properties whose key is an array index, in ascending order. *)
Fixpoint index_props {A} (obj : list (string * A)) : list (N * (string * A)) :=
  match obj with
  | [] => []
  | kv :: rest =>
      match array_index (fst kv) with
      | Some i => insert_index i kv (index_props rest)
      | None => index_props rest
      end
  end.

Definition is_name {A} (kv : string * A) : bool :=
  match array_index (fst kv) with Some _ => false | None => true end.

(** The properties of an object in the order of [for (k in obj)]. *)
Definition for_in {A} (obj : list (string * A)) : list (string * A) :=
  map snd (index_props obj) ++ filter is_name obj.

(** ** The backend *)

(** [this.request(url, settings)], lines 112-117, as a call site has it:
    with [this] undefined the read of [this.request] throws; otherwise
    the request is built from the fields of the instance and sent. *)
Definition request (this : option GithubAPI) (r : GithubAPI -> call) : M response :=
  match this with
  | Some api => ajax (r api)
  | None => throw (TypeError "request")
  end.

(** [getBranch()], lines 119-121. *)
Definition getBranch (this : option GithubAPI) : M response :=
  request this (fun api => GetBranch (api_base api) (api_branch api)).

(** [getTree(sha)], lines 123-125: a null [sha] resolves to [{tree: []}]
    without a request. *)
Definition getTree (this : GithubAPI) (sha : option object_id) : M response :=
  match sha with
  | Some s => request (Some this) (fun api => GetTree (api_base api) s)
  | None => ret (TreeData [])
  end.

(** [file.base64 ? file.base64() : Base64.encode(file.content)]. *)
Definition blob_content (file : PendingFile) : base64 :=
  match file_base64 file with
  | Some data => Text data
  | None => Encode (file_content file)
  end.

(** [uploadBlob(file)], lines 127-139; [file] is the index of the file
    object in the heap. *)
Definition uploadBlob (this : GithubAPI) (file : nat) : M nat :=
  h <- get_heap ;;
  response <- request (Some this)
                (fun api => PostBlob (api_base api) (blob_content (file_at h file))) ;;
  _ <- modify_heap (update_at file (mark_uploaded (resp_sha response))) ;;
  ret file.

(** What a property read [fileTree[k]] finds beyond the own properties
    of [fileTree]. *)
Inductive value :=
| Own (n : node)
| Inherited (name : string).

(** A member of the array [updates] before [Promise.all]: an object
    literal, or the promise of [this.updateTree(sha, path, fileOrDir)]
    with the computation that it stands for. *)
Inductive member :=
| Literal (u : update)
| Promise (sha : option object_id) (path : string) (fileOrDir : value)
          (run : M ChangeTree).

Definition member_path (m : member) : string :=
  match m with
  | Literal u => update_path u
  | Promise _ path _ _ => path
  end.

(** What [Promise.all] makes of a member. *)
Definition settle (m : member) : M update :=
  match m with
  | Literal u => ret u
  | Promise _ _ _ run => c <- run ;; ret (Subtree c)
  end.

(** Is [fileOrDir.file] true?  It is the flag of a file object, or
    whatever a key ["file"] is bound to. *)
Definition file_flag (h : list PendingFile) (fileOrDir : node) : bool :=
  match get_prop "file" (props_of fileOrDir) with
  | Some _ => true
  | None =>
      match fileOrDir with
      | File r _ => file_file (file_at h r)
      | Dir _ => false
      end
  end.

(** [fileOrDir.sha]. *)
Definition sha_of (h : list PendingFile) (fileOrDir : node) : sha_value :=
  match fileOrDir with
  | File r _ =>
      match file_sha (file_at h r) with
      | Some s => ShaId s
      | None => ShaUndefined
      end
  | Dir ps =>
      match get_prop "sha" ps with
      | Some n => ShaObject n
      | None => ShaUndefined
      end
  end.

(** A merge waiting for its base tree and its path. *)
Definition merge := option object_id -> string -> M ChangeTree.

(** An own property of [fileTree] as the loops read it: the object, and
    the merge that [this.updateTree(sha, path, fileOrDir)] starts on
    it. *)
Definition pending := (node * merge)%type.

(** The merge into a value that is not a plain object: line 142 reads
    the tree of [sha]; what the loops then find on the value is not
    followed. *)
Definition unfollowed (this : GithubAPI) (value : string) : merge :=
  fun sha path => _ <- getTree this sha ;; throw (Unfollowed value).

(** What either loop pushes for a value [fileOrDir] of [fileTree]:
    [fileOrDir.file ? {path, mode, type, sha: fileOrDir.sha}
                    : this.updateTree(sha, path, fileOrDir)]. *)
Definition pushed (h : list PendingFile) (sha : option object_id)
  (path mode type : string) (fileOrDir : pending) : member :=
  if file_flag h (fst fileOrDir)
  then Literal (Entry path mode type (sha_of h (fst fileOrDir)))
  else Promise sha path (Own (fst fileOrDir)) (snd fileOrDir sha path).

(** The first loop of [updateTree], lines 148-158, over the entries of
    the existing tree: the members pushed to [updates] and the keys set
    in [added].  [fileTree[obj.path]] is an own property, or a member of
    [Object.prototype], which has no [file] and is merged into. *)
Fixpoint existing_pass (this : GithubAPI) (h : list PendingFile)
  (fileTree : list (string * pending)) (tree : list TreeEntry)
  : list member * list string :=
  match tree with
  | [] => ([], [])
  | obj :: rest =>
      let '(updates, added) := existing_pass this h fileTree rest in
      match get_prop (entry_path obj) fileTree with
      | Some fileOrDir =>
          (pushed h (Some (entry_sha obj)) (entry_path obj) (entry_mode obj)
                  (entry_type obj) fileOrDir :: updates,
           entry_path obj :: added)
      | None =>
          if inherited (entry_path obj)
          then (Promise (Some (entry_sha obj)) (entry_path obj)
                        (Inherited (entry_path obj))
                        (unfollowed this (entry_path obj) (Some (entry_sha obj))
                                    (entry_path obj)) :: updates,
                entry_path obj :: added)
          else (updates, added)
      end
  end.

(** [added[filename]]: a key that the first loop set, or a member of
    [Object.prototype]. *)
Definition is_added (filename : string) (added : list string) : bool :=
  existsb (String.eqb filename) added || inherited filename.

(** The second loop, lines 159-167, over the keys of [fileTree] for
    which [added[filename]] is not true. *)
Fixpoint new_pass (h : list PendingFile) (added : list string)
  (fileTree : list (string * pending)) : list member :=
  match fileTree with
  | [] => []
  | (filename, fileOrDir) :: rest =>
      if is_added filename added then new_pass h added rest
      else pushed h None filename "100644" "blob" fileOrDir :: new_pass h added rest
  end.

(** The body of [updateTree], lines 142-177, on the own properties of
    [fileTree] as the loops read them.  The callbacks of lines 169 and
    174 are [function] expressions: their [this] is undefined. *)
Definition updateTree_body (this : GithubAPI) (sha : option object_id) (path : string)
  (fileTree : list (string * pending)) : M ChangeTree :=
  tree <- getTree this sha ;;
  h <- get_heap ;;
  let '(updates, added) := existing_pass this h fileTree (resp_tree tree) in
  updates <- promise_all (map settle (updates ++ new_pass h added (for_in fileTree))) ;;
  response <- request undefined (fun api => PostTree (api_base api) sha updates) ;;
  ret (mkChange path "040000" "tree" (resp_sha response) sha).

(** [updateTree(sha, path, fileTree)], lines 141-178, on a plain object
    [fileTree]; each of its values stands for the merge of itself. *)
Fixpoint updateTree (this : GithubAPI) (sha : option object_id) (path : string)
  (fileTree : node) {struct fileTree} : M ChangeTree :=
  match fileTree with
  | Dir ps =>
      updateTree_body this sha path
        (map (fun kn : string * node =>
                let '(k, n) := kn in (k, (n, fun s p => updateTree this s p n)))
             ps)
  | File _ _ => unfollowed this "file object" sha path
  end.

(** [path.split("/")]. *)
Fixpoint split_slash (s : string) : list string :=
  match s with
  | EmptyString => [""]
  | String c rest =>
      if Ascii.eqb c "/"%char then "" :: split_slash rest
      else match split_slash rest with
           | part :: parts => String c part :: parts
           | [] => [String c ""]
           end
  end.

(** [path.split("/").filter((part) => part)]. *)
Definition path_parts (path : string) : list string :=
  filter (fun part => negb (String.eqb part "")) (split_slash path).

(** [filename = parts.pop()]: the last part, and the parts before it; with
    no part at all the key that [undefined] names. *)
Definition pop_filename (parts : list string) : list string * string :=
  match rev parts with
  | [] => ([], "undefined")
  | filename :: before => (rev before, filename)
  end.

(** The descent [while (part = parts.shift())] followed by
    [subtree[filename] = file], on the properties of [subtree]. *)
Fixpoint place (parts : list string) (filename : string) (file : node)
  (subtree : list (string * node)) : list (string * node) :=
  match parts with
  | [] => set_prop filename file subtree
  | part :: rest =>
      let sub := match get_prop part subtree with
                 | Some n => n
                 | None => Dir []
                 end in
      set_prop part (with_props sub (place rest filename file (props_of sub))) subtree
  end.

Record Options := mkOptions { message : string }.

(** The state of the loop of [updateFiles]: the heap, [fileTree] and the
    array [files] of file objects and upload promises. *)
Record loop_state := mkLoop {
  loop_heap : list PendingFile;
  loop_fileTree : list (string * node);
  loop_files : list (M nat)
}.

(** One turn of the loop, lines 83-94, for [file = uploads[i]]. *)
Definition loop_step (this : GithubAPI) (st : loop_state) (i : nat) : loop_state :=
  let file := file_at (loop_heap st) i in
  if file_uploaded file then st
  else
    let '(parts, filename) := pop_filename (path_parts (file_path file)) in
    mkLoop (update_at i mark_file (loop_heap st))
           (place parts filename (File i []) (loop_fileTree st))
           (loop_files st ++ [if file_upload file then ret i else uploadBlob this i]).

(** The loop of lines 82-95 over the array that [uploads] names. *)
Definition loop (this : GithubAPI) (uploads : list PendingFile) : loop_state :=
  fold_left (loop_step this) (seq 0 (List.length uploads)) (mkLoop uploads [] []).

(** The bindings of the global scope that [updateFiles] reads. *)
Record Globals := mkGlobals {
  global_uploads : option (list PendingFile);
  global_base : option string;
  global_branch : option string
}.

(** Reading an identifier that no scope of the method declares. *)
Definition free_identifier {A} (name : string) (binding : option A) : M A :=
  match binding with
  | Some v => ret v
  | None => throw (ReferenceError name)
  end.

(** [updateFiles(files, options)], lines 77-110.  The array of the loop
    is the global [uploads], whose file objects are the heap of the run;
    [files] is rebound before it is read.  [this.getBranch] is handed to
    [then] as a value. *)
Definition updateFiles (this : GithubAPI) (globals : Globals)
  (files : list PendingFile) (options : Options) : M response :=
  uploads <- free_identifier "uploads" (global_uploads globals) ;;
  let st := loop this uploads in
  _ <- modify_heap (fun _ => loop_heap st) ;;
  _ <- promise_all (loop_files st) ;;
  branchData <- getBranch undefined ;;
  changeTree <- updateTree this (Some (resp_sha branchData)) "/"
                           (Dir (loop_fileTree st)) ;;
  response <- (base <- free_identifier "base" (global_base globals) ;;
               request (Some this)
                 (fun _ => PostCommit base (message options) (change_sha changeTree)
                                      [change_parentSha changeTree])) ;;
  base <- free_identifier "base" (global_base globals) ;;
  branch <- free_identifier "branch" (global_branch globals) ;;
  request (Some this) (fun _ => PatchRef base branch (resp_sha response) false).

(** The settings of a request: the objects [headers] and [data] and the
    plain values, absent when not set. *)
Record Settings := mkSettings {
  set_headers : list (string * string);
  set_contentType : option string;
  set_data : list (string * string);
  set_cache : option bool;
  set_type : option string
}.

Definition no_settings : Settings := mkSettings [] None [] None None.

(** A deep [extend] on objects of strings: every key of [src] is set on
    [target]. *)
Definition extend_object (target src : list (string * string)) : list (string * string) :=
  fold_left (fun acc kv => set_prop (fst kv) (snd kv) acc) src target.

Definition extend_value {A} (target src : option A) : option A :=
  match src with Some v => Some v | None => target end.

(** [Ember.$.extend(true, target, src)] on settings. *)
Definition extend (target src : Settings) : Settings :=
  mkSettings (extend_object (set_headers target) (set_headers src))
             (extend_value (set_contentType target) (set_contentType src))
             (extend_object (set_data target) (set_data src))
             (extend_value (set_cache target) (set_cache src))
             (extend_value (set_type target) (set_type src)).

(** What [request(url, settings)], lines 112-117, hands to [ajax]. *)
Definition ajax_settings (this : GithubAPI) (settings : option Settings) : Settings :=
  extend (mkSettings [("Authorization", String.append "Bearer " (api_token this))]
                     (Some "application/json") [] None None)
         (match settings with Some s => s | None => no_settings end).

(** [readFile(path)], lines 46-52: the url and the settings of its
    request. *)
Definition readFile (this : GithubAPI) (path : string) : string * Settings :=
  (String.append (api_base this) (String.append "/contents/" path),
   ajax_settings this
     (Some (mkSettings [("Accept", "application/vnd.github.VERSION.raw")] None
                       [("ref", api_branch this)] (Some false) None))).

(** [listFiles(path)], lines 61-65. *)
Definition listFiles (this : GithubAPI) (path : string) : string * Settings :=
  (String.append (api_base this) (String.append "/contents/" path),
   ajax_settings this
     (Some (mkSettings [] None [("ref", api_branch this)] None None))).

(** ** Vocabulary of the properties *)

(** Induction on [fileTree], through its nested properties. *)
Fixpoint node_nested_ind (P : node -> Prop)
  (HFile : forall r ps, Forall (fun kn => P (snd kn)) ps -> P (File r ps))
  (HDir : forall ps, Forall (fun kn => P (snd kn)) ps -> P (Dir ps))
  (n : node) {struct n} : P n :=
  let all := fix all (ps : list (string * node)) : Forall (fun kn => P (snd kn)) ps :=
    match ps with
    | [] => Forall_nil _
    | kn :: rest =>
        Forall_cons kn (node_nested_ind P HFile HDir (snd kn)) (all rest)
    end in
  match n with
  | File r ps => HFile r ps (all ps)
  | Dir ps => HDir ps (all ps)
  end.

(** The own properties of [fileTree] as [updateTree] reads them. *)
Definition as_pending (this : GithubAPI) (fileTree : list (string * node))
  : list (string * pending) :=
  map (fun kn : string * node =>
         let '(k, n) := kn in (k, (n, fun s p => updateTree this s p n)))
      fileTree.

(** A property of merges that holds of the merge of every own property
    of [fileTree]. *)
Definition pending_all (good : option object_id -> string -> M ChangeTree -> Prop)
  (fileTree : list (string * pending)) : Prop :=
  Forall (fun kp => forall s p, good s p (snd (snd kp) s p)) fileTree.

(** The array [updates] that [updateTree] hands to [Promise.all], for
    the existing tree [T]. *)
Definition merge_members (this : GithubAPI) (h : list PendingFile)
  (fileTree : list (string * pending))
  (T : list TreeEntry) : list member :=
  fst (existing_pass this h fileTree T)
  ++ new_pass h (snd (existing_pass this h fileTree T)) (for_in fileTree).

(** Does the first loop find [fileTree[obj.path]] true? *)
Definition consumed {A} (fileTree : list (string * A)) (obj : TreeEntry) : bool :=
  match get_prop (entry_path obj) fileTree with
  | Some _ => true
  | None => inherited (entry_path obj)
  end.

Definition not_added {A} (added : list string) (kp : string * A) : bool :=
  negb (is_added (fst kp) added).

(** A successful [Promise.all], member by member. *)
Inductive all_run {A} : list (M A) -> world -> list A -> world -> Prop :=
| all_run_nil w : all_run [] w [] w
| all_run_cons m ms w a w1 l w2 :
    m w = (inr a, w1) -> all_run ms w1 l w2 ->
    all_run (m :: ms) w (a :: l) w2.

Definition is_patch (c : call) : bool :=
  match c with PatchRef _ _ _ _ => true | _ => false end.

Definition is_commit_creation (c : call) : bool :=
  match c with PostCommit _ _ _ _ => true | _ => false end.

Definition is_tree_creation (c : call) : bool :=
  match c with PostTree _ _ _ => true | _ => false end.

Definition is_branch_read (c : call) : bool :=
  match c with GetBranch _ _ => true | _ => false end.

Definition no_race (sc : list event) : Prop := Forall (fun e => e <> Raced) sc.

(** A property of computations that the promise combinators pass on. *)
Record passed_on (Q : forall A, M A -> Prop) : Prop := mkPassed {
  passed_ret : forall A (a : A), Q A (ret a);
  passed_bind : forall A B (m : M A) (k : A -> M B),
      Q A m -> (forall a, Q B (k a)) -> Q B (bind m k);
  passed_all : forall A (ms : list (M A)), Forall (Q A) ms -> Q (list A) (promise_all ms);
  passed_heap : forall B (k : list PendingFile -> M B),
      (forall h, Q B (k h)) -> Q B (bind get_heap k)
}.

(** The requests that a computation adds to the log all satisfy [P]. *)
Definition logs_only (P : call * outcome -> Prop) (A : Type) (m : M A) : Prop :=
  forall w, exists l, log (snd (m w)) = log w ++ l /\ Forall P l.

(** A computation that leaves the heap as it was, whatever its outcome. *)
Definition keeps_heap (A : Type) (m : M A) : Prop :=
  forall w, heap (snd (m w)) = heap w.

(** A computation that never resolves. *)
Definition never_resolves (A : Type) (m : M A) : Prop :=
  forall w, exists e, fst (m w) = inl e.

(** A member that is a promise stands for a computation that never
    resolves. *)
Definition unresolved (m : member) : Prop :=
  match m with
  | Literal _ => True
  | Promise _ _ _ run => never_resolves ChangeTree run
  end.

(** A computation that sends nothing and changes nothing. *)
Definition idle (A : Type) (m : M A) : Prop :=
  forall w, snd (m w) = w.

(** A computation that leaves the remote store as it was unless another
    writer steps in, and the repository that the world holds. *)
Definition reads_only (A : Type) (m : M A) : Prop :=
  forall w, repo_url (snd (m w)) = repo_url w /\
            repo_branch (snd (m w)) = repo_branch w /\
            (no_race (script w) ->
             objects (snd (m w)) = objects w /\ head (snd (m w)) = head w /\
             no_race (script (snd (m w)))).

(** A tree read on the repository of the instance. *)
Definition is_tree_read (this : GithubAPI) (x : call * outcome) : Prop :=
  exists s, fst x = GetTree (api_base this) s.

(** A blob creation on the repository of the instance. *)
Definition is_blob_creation (this : GithubAPI) (x : call * outcome) : Prop :=
  exists content, fst x = PostBlob (api_base this) content.

(** Every file object of the tree that a merge can reach has its [file]
    flag set, as line 94 leaves it. *)
Inductive flagged (h : list PendingFile) : node -> Prop :=
| flagged_file r ps : file_file (file_at h r) = true -> flagged h (File r ps)
| flagged_dir ps :
    Forall (fun kn => flagged h (snd kn)) ps -> flagged h (Dir ps).

(** A blob creation on the repository of the instance, with one of the
    outcomes that it can have. *)
Definition blob_exchange (this : GithubAPI) (x : call * outcome) : Prop :=
  exists content,
    fst x = PostBlob (api_base this) content /\
    (snd x = inl TransportError \/ snd x = inl (HttpError 404) \/
     exists id, snd x = inr (Created id)).

(** A computation under which the store gains nothing but blobs and the
    head stays, unless another writer steps in. *)
Definition adds_blobs (A : Type) (m : M A) : Prop :=
  forall w, no_race (script w) ->
            no_race (script (snd (m w))) /\
            head (snd (m w)) = head w /\
            exists bs, objects (snd (m w)) = objects w ++ map Blob bs.

(** A computation under which the objects of the store stay and others
    may come. *)
Definition grows (A : Type) (m : M A) : Prop :=
  forall w, exists ex, objects (snd (m w)) = objects w ++ ex.

(** The world in which the promises of [updateFiles] run: the file
    objects are those of [uploads], as the loop leaves them. *)
Definition after_loop (this : GithubAPI) (uploads : list PendingFile) (w : world)
  : world :=
  mkWorld (loop_heap (loop this uploads)) (repo_url w) (repo_branch w) (objects w)
          (head w) (script w) (log w).

(** The error of the first failed request of a log. *)
Fixpoint first_error (l : list (call * outcome)) : option error :=
  match l with
  | [] => None
  | (_, inl e) :: _ => Some e
  | (_, inr _) :: rest => first_error rest
  end.

(** The position at which the loop places a file: the parts of its path
    that it descends through, then the file name. *)
Definition position (path : string) : list string :=
  let '(parts, filename) := pop_filename (path_parts path) in
  parts ++ [filename].

(** The node at a position of the directory tree, reached through nested
    objects that are not files. *)
Fixpoint node_at (pos : list string) (fileTree : list (string * node)) : option node :=
  match pos with
  | [] => None
  | k :: rest =>
      match rest with
      | [] => get_prop k fileTree
      | _ :: _ =>
          match get_prop k fileTree with
          | Some (Dir ps) => node_at rest ps
          | _ => None
          end
      end
  end.

(** A path occupies a leaf position when the node at its position is a
    file object. *)
Definition occupies_leaf (path : string) (fileTree : list (string * node)) : Prop :=
  exists r ps, node_at (position path) fileTree = Some (File r ps).

(** No file object lies on the way along [parts]. *)
Fixpoint clear_way (parts : list string) (fileTree : list (string * node)) : Prop :=
  match parts with
  | [] => True
  | part :: rest =>
      match get_prop part fileTree with
      | None => True
      | Some (Dir ps) => clear_way rest ps
      | Some (File _ _) => False
      end
  end.

Definition strict_prefix (p q : list string) : Prop :=
  exists ext, ext <> [] /\ q = p ++ ext.

(** The tree that the loop builds, as a function of [uploads] alone. *)
Definition tree_step (uploads : list PendingFile) (fileTree : list (string * node))
  (i : nat) : list (string * node) :=
  let file := file_at uploads i in
  if file_uploaded file then fileTree
  else
    let '(parts, filename) := pop_filename (path_parts (file_path file)) in
    place parts filename (File i []) fileTree.










(** A computation whose requests are blob creations and that fails
    exactly when one of them does, with the error of the first one that
    failed. *)
Definition blob_run (this : GithubAPI) (A : Type) (m : M A) : Prop :=
  forall w, exists l,
      log (snd (m w)) = log w ++ l /\
      Forall (blob_exchange this) l /\
      match fst (m w) with
      | inl e => first_error l = Some e
      | inr _ => first_error l = None
      end.

(** The member of [files] that the loop pushes for [uploads[i]]. *)
Definition upload_member (this : GithubAPI) (uploads : list PendingFile) (i : nat)
  : M nat :=
  if file_upload (file_at uploads i) then ret i else uploadBlob this i.

(** The indices of the files that the loop does not skip. *)
Definition pending_indices (uploads : list PendingFile) : list nat :=
  filter (fun i => negb (file_uploaded (file_at uploads i)))
         (seq 0 (List.length uploads)).


(** Two file objects that differ at most in the [file] flag. *)
Definition same_but_file (f g : PendingFile) : Prop :=
  file_path f = file_path g /\ file_content f = file_content g /\
  file_base64 f = file_base64 g /\
  file_sha f = file_sha g /\ file_uploaded f = file_uploaded g /\
  file_upload f = file_upload g.

(** What the file objects would upload is what those of [uploads]
    would. *)
Definition holds_contents (uploads : list PendingFile) (w : world) : Prop :=
  forall j, blob_content (file_at (heap w) j) = blob_content (file_at uploads j).



(** Some file object lies at the position [q] or on the way to it. *)
Definition covered (q : list string) (fileTree : list (string * node)) : Prop :=
  exists p ext r ps, q = p ++ ext /\ node_at p fileTree = Some (File r ps).

(** ** Scenarios *)

Definition entry (p m t : string) (s : object_id) : TreeEntry :=
  mkEntry p m t s.

Definition pending_file (path content : string) : PendingFile :=
  mkFile path content None None false false false.

(** The instance of the scenarios. *)
Definition api_B : GithubAPI :=
  constructor (mkConfig "owner/site" "master") (mkCredentials "t0k").

(** A repository whose head commit 4 has the root tree 3,
    [{a.txt: blob 0, dir: tree 2 {b.txt: blob 1}}]. *)
Definition repo_B : list object :=
  [ Blob (Encode "one"); Blob (Encode "two");
    Tree [entry "b.txt" "100644" "blob" 1];
    Tree [entry "a.txt" "100755" "blob" 0; entry "dir" "040000" "tree" 2];
    Commit "init" 3 [] ].

Definition tree_B : list TreeEntry :=
  [entry "a.txt" "100755" "blob" 0; entry "dir" "040000" "tree" 2].

Definition world_B (sc : list event) : world :=
  mkWorld [] (api_base api_B) "master" repo_B 4 sc [].

(** The repository with the blobs of the file objects [h], uploaded in
    the order of [h] as the objects 5, 6, ... *)
Definition world_merge (h : list PendingFile) : world :=
  mkWorld h (api_base api_B) "master"
          (repo_B ++ map (fun f => Blob (blob_content f)) h) 4 [] [].

(** No global binding but the array [uploads]. *)
Definition only_uploads (uploads : list PendingFile) : Globals :=
  mkGlobals (Some uploads) None None.

Definition uploaded_file (path content : string) (s : object_id) : PendingFile :=
  mkFile path content None (Some s) true false true.

Definition heap_a : list PendingFile := [uploaded_file "a.txt" "updated" 5].

Definition heap_new : list PendingFile := [uploaded_file "new.txt" "fresh" 5].

Definition heap_two : list PendingFile :=
  [uploaded_file "a.txt" "updated" 5; uploaded_file "b.txt" "new" 6].

Definition tree_two : list (string * node) :=
  [("b.txt", File 1 []); ("a.txt", File 0 [])].

Definition heap_docs : list PendingFile := [uploaded_file "docs/b.txt" "text" 5].

Definition tree_docs : list (string * node) :=
  [("docs", Dir [("b.txt", File 0 [])])].

(** The world after the tree of the head commit has been read. *)
Definition world_read (h : list PendingFile) : world :=
  mkWorld h (api_base api_B) "master" (objects (world_merge h)) 4 []
          [(GetTree (api_base api_B) 4, inr (TreeData tree_B))].




Definition uploads_clash : list PendingFile :=
  [pending_file "a/b.txt" "deep"; pending_file "a" "flat"].

(** *** Proof steps *)

(** Case analysis on the answer of the remote to a request. *)
Ltac case_serve H :=
  match type of H with
  | context [serve ?r ?a ?b] =>
      let E := fresh "E" in
      destruct (serve r a b) as [[? ?] ?] eqn:E
  end.

(** ** Reasoning tools *)

Lemma updateTree_eq this sha path ps :
  updateTree this sha path (Dir ps)
  = updateTree_body this sha path (as_pending this ps).
Proof. reflexivity. Qed.

Lemma bind_ret_l {A B} (a : A) (k : A -> M B) w : bind (ret a) k w = k a w.
Proof. reflexivity. Qed.

Lemma bind_get_heap {B} (k : list PendingFile -> M B) w :
  bind get_heap k w = k (heap w) w.
Proof. reflexivity. Qed.

Lemma bind_modify_heap {B} g (k : unit -> M B) w :
  bind (modify_heap g) k w
  = k tt (mkWorld (g (heap w)) (repo_url w) (repo_branch w) (objects w) (head w)
                  (script w) (log w)).
Proof. reflexivity. Qed.

Lemma promise_all_ok {A} (ms : list (M A)) : forall w l w',
  promise_all ms w = (inr l, w') -> all_run ms w l w'.
Proof.
  induction ms as [|m ms IH]; intros w l w' H; simpl in H.
  - inversion H; subst. constructor.
  - destruct (m w) as [[e|a] w1] eqn:E.
    + inversion H.
    + destruct (promise_all ms w1) as [[e|l1] w2] eqn:E2; inversion H; subst.
      econstructor; eauto.
Qed.

Lemma get_prop_In {A} k (l : list (string * A)) v :
  get_prop k l = Some v -> In (k, v) l.
Proof.
  induction l as [|[k' v'] l IH]; simpl; [discriminate|].
  destruct (String.eqb_spec k' k); intros H.
  - inversion H; subst. auto.
  - auto.
Qed.

(** *** Requests *)

Lemma ajax_log r w o w' :
  ajax r w = (o, w') ->
  log w' = log w ++ [(r, o)] /\ heap w' = heap w /\ script w' = tl (script w) /\
  repo_url w' = repo_url w /\ repo_branch w' = repo_branch w.
Proof.
  unfold ajax, race. intros H.
  destruct (script w) as [|[| |] sc]; simpl in H;
    destruct (addressed r (repo_url w) (repo_branch w));
    try case_serve H; inversion H; subst; simpl; auto.
Qed.

Lemma request_undefined r w :
  request undefined r w = (inl (TypeError "request"), w).
Proof. reflexivity. Qed.

(** *** Properties that the promise combinators pass on *)

Lemma logs_only_passed_on P : passed_on (logs_only P).
Proof.
  split.
  - intros A a w. exists []. simpl. split; [now rewrite app_nil_r | constructor].
  - intros A B m k Hm Hk w. unfold bind.
    destruct (Hm w) as (l1 & L1 & P1).
    destruct (m w) as [[e|a] w1]; simpl in *; eauto.
    destruct (Hk a w1) as (l2 & L2 & P2).
    exists (l1 ++ l2). split.
    + rewrite L2, L1. now rewrite app_assoc.
    + apply Forall_app. auto.
  - intros A ms H. induction H as [|m ms Hm _ IH]; intros w; simpl.
    + exists []. simpl. split; [now rewrite app_nil_r | constructor].
    + destruct (Hm w) as (l1 & L1 & P1).
      destruct (m w) as [[e|a] w1]; simpl in *;
        destruct (IH w1) as (l2 & L2 & P2);
        destruct (promise_all ms w1) as [[e2|l] w2]; simpl in *;
        exists (l1 ++ l2); (split; [rewrite L2, L1; now rewrite app_assoc
                                   | apply Forall_app; auto]).
  - intros B k Hk w. apply (Hk (heap w) w).
Qed.

Lemma logs_only_throw P A e : logs_only P A (throw e).
Proof. intros w. exists []. simpl. split; [now rewrite app_nil_r | constructor]. Qed.

Lemma logs_only_ajax (P : call * outcome -> Prop) r :
  (forall o, P (r, o)) -> logs_only P response (ajax r).
Proof.
  intros H w. destruct (ajax r w) as [o w'] eqn:E.
  apply ajax_log in E. destruct E as (L & _).
  exists [(r, o)]. simpl. split; auto.
Qed.

Lemma keeps_heap_passed_on : passed_on keeps_heap.
Proof.
  split.
  - intros A a w. reflexivity.
  - intros A B m k Hm Hk w. unfold bind.
    specialize (Hm w). destruct (m w) as [[e|a] w1]; simpl in *; auto.
    rewrite Hk. exact Hm.
  - intros A ms H. induction H as [|m ms Hm _ IH]; intros w; simpl; auto.
    specialize (Hm w). destruct (m w) as [[e|a] w1]; simpl in *;
      specialize (IH w1);
      destruct (promise_all ms w1) as [[e2|l] w2]; simpl in *; congruence.
  - intros B k Hk w. apply (Hk (heap w) w).
Qed.

Lemma keeps_heap_throw A e : keeps_heap A (throw e).
Proof. intros w. reflexivity. Qed.

Lemma keeps_heap_ajax r : keeps_heap response (ajax r).
Proof.
  intros w. destruct (ajax r w) as [o w'] eqn:E.
  now apply ajax_log in E.
Qed.

Lemma idle_passed_on : passed_on idle.
Proof.
  split.
  - intros A a w. reflexivity.
  - intros A B m k Hm Hk w. unfold bind.
    specialize (Hm w). destruct (m w) as [[e|a] w1]; simpl in *; auto.
    rewrite Hk. exact Hm.
  - intros A ms H. induction H as [|m ms Hm _ IH]; intros w; simpl; auto.
    specialize (Hm w). destruct (m w) as [[e|a] w1]; simpl in *;
      specialize (IH w1);
      destruct (promise_all ms w1) as [[e2|l] w2]; simpl in *; congruence.
  - intros B k Hk w. apply (Hk (heap w) w).
Qed.

Lemma no_race_tl sc : no_race sc -> no_race (tl sc).
Proof. intros H. destruct sc; simpl; auto. now inversion H. Qed.

Lemma reads_only_passed_on : passed_on reads_only.
Proof.
  split.
  - intros A a w. simpl. repeat split; auto.
  - intros A B m k Hm Hk w. unfold bind.
    specialize (Hm w). destruct (m w) as [[e|a] w1]; simpl in *; auto.
    destruct Hm as (U1 & B1 & R1). destruct (Hk a w1) as (U2 & B2 & R2).
    split; [congruence|]. split; [congruence|].
    intros N. destruct (R1 N) as (O1 & H1 & N1). destruct (R2 N1) as (O2 & H2 & N2).
    repeat split; congruence.
  - intros A ms H. induction H as [|m ms Hm _ IH]; intros w; simpl.
    + repeat split; auto.
    + specialize (Hm w). destruct (m w) as [[e|a] w1]; simpl in *;
        specialize (IH w1);
        destruct (promise_all ms w1) as [[e2|l] w2]; simpl in *;
        destruct Hm as (U1 & B1 & R1); destruct IH as (U2 & B2 & R2);
        (split; [congruence|]); (split; [congruence|]);
        intros N; destruct (R1 N) as (O1 & H1 & N1);
        destruct (R2 N1) as (O2 & H2 & N2); repeat split; congruence.
  - intros B k Hk w. apply (Hk (heap w) w).
Qed.

Lemma reads_only_throw A e : reads_only A (throw e).
Proof. intros w. simpl. repeat split; auto. Qed.

Lemma reads_only_GetTree base s : reads_only response (ajax (GetTree base s)).
Proof.
  intros w. destruct (ajax (GetTree base s) w) as [o w'] eqn:E.
  pose proof (ajax_log _ _ _ _ E) as (_ & _ & Hs & Hu & Hb). simpl.
  split; auto. split; auto. intros N.
  assert (N' : no_race (script w')) by (rewrite Hs; now apply no_race_tl).
  unfold ajax in E.
  destruct (script w) as [|[| |] sc]; simpl in E.
  - destruct (addressed _ _ _); simpl in E;
      [destruct (tree_entries (objects w) s)|]; inversion E; subst; simpl; auto.
  - destruct (addressed _ _ _); simpl in E;
      [destruct (tree_entries (objects w) s)|]; inversion E; subst; simpl; auto.
  - inversion E; subst; simpl; auto.
  - inversion N; congruence.
Qed.

(** *** The order of [for ... in] *)

Lemma insert_index_perm {A} (i : N) (x : A) l :
  Permutation (map snd (insert_index i x l)) (x :: map snd l).
Proof.
  induction l as [|[j y] l IH]; simpl; auto.
  destruct (i <? j)%N; simpl; auto.
  rewrite IH. apply perm_swap.
Qed.

Lemma for_in_perm {A} (obj : list (string * A)) : Permutation (for_in obj) obj.
Proof.
  unfold for_in. induction obj as [|kv obj IH]; simpl; auto.
  unfold is_name at 1. destruct (array_index (fst kv)) as [i|]; simpl.
  - rewrite insert_index_perm. simpl. auto.
  - rewrite <- Permutation_middle. auto.
Qed.

Lemma In_for_in {A} (obj : list (string * A)) x : In x (for_in obj) <-> In x obj.
Proof.
  split; apply Permutation_in; [|symmetry]; apply for_in_perm.
Qed.

Lemma Forall_for_in {A} (P : string * A -> Prop) obj :
  Forall P obj -> Forall P (for_in obj).
Proof.
  intros H. apply Forall_forall. intros x Hx.
  apply (proj1 (In_for_in obj x)) in Hx. rewrite Forall_forall in H. now apply H.
Qed.

Lemma keys_for_in {A} (obj : list (string * A)) :
  NoDup (keys obj) -> NoDup (keys (for_in obj)).
Proof.
  unfold keys. intros H.
  eapply Permutation_NoDup; [|exact H].
  apply Permutation_map. symmetry. apply for_in_perm.
Qed.

(** *** The members of a merge *)

Lemma pushed_all (Q : forall A, M A -> Prop) h sha path mode type fileOrDir :
  passed_on Q ->
  Q ChangeTree (snd fileOrDir sha path) ->
  Q update (settle (pushed h sha path mode type fileOrDir)).
Proof.
  intros HQ Hm. unfold pushed. destruct fileOrDir as [n run]. simpl in *.
  destruct (file_flag h n); simpl.
  - apply (passed_ret _ HQ).
  - apply (passed_bind _ HQ); auto. intros c. apply (passed_ret _ HQ).
Qed.

Lemma unfollowed_all (Q : forall A, M A -> Prop) this value sha path :
  passed_on Q ->
  (forall A e, Q A (throw e)) ->
  Q response (getTree this sha) ->
  Q ChangeTree (unfollowed this value sha path).
Proof.
  intros HQ Hthrow Htree. unfold unfollowed.
  apply (passed_bind _ HQ); auto.
Qed.

Lemma existing_pass_all (Q : forall A, M A -> Prop)
  (good : option object_id -> string -> M ChangeTree -> Prop) this h fileTree :
  passed_on Q ->
  (forall A e, Q A (throw e)) ->
  (forall s, Q response (getTree this s)) ->
  pending_all good fileTree ->
  (forall s p m, good (Some s) p m -> Q ChangeTree m) ->
  forall tree, Forall (fun m => Q update (settle m))
                      (fst (existing_pass this h fileTree tree)).
Proof.
  intros HQ Hthrow Htree Hall Hgood tree.
  induction tree as [|obj rest IH]; simpl; [constructor|].
  destruct (existing_pass this h fileTree rest) as [updates added]; simpl in *.
  destruct (get_prop (entry_path obj) fileTree) as [fileOrDir|] eqn:G; simpl.
  - constructor; auto. apply pushed_all; auto.
    apply get_prop_In in G.
    unfold pending_all in Hall. rewrite Forall_forall in Hall.
    eapply Hgood. apply (Hall _ G).
  - destruct (inherited (entry_path obj)); simpl; auto.
    constructor; auto. simpl.
    apply (passed_bind _ HQ); [now apply unfollowed_all|].
    intros c. apply (passed_ret _ HQ).
Qed.

Lemma new_pass_all (Q : forall A, M A -> Prop)
  (good : option object_id -> string -> M ChangeTree -> Prop) h added :
  passed_on Q ->
  (forall p m, good None p m -> Q ChangeTree m) ->
  forall fileTree, pending_all good fileTree ->
  Forall (fun m => Q update (settle m)) (new_pass h added fileTree).
Proof.
  intros HQ Hgood fileTree Hall.
  induction Hall as [|[k fileOrDir] rest Hk _ IH]; simpl; [constructor|].
  destruct (is_added k added); auto. constructor; auto.
  apply pushed_all; auto. eapply Hgood. apply Hk.
Qed.

Lemma as_pending_all (good : option object_id -> string -> M ChangeTree -> Prop)
  this fileTree :
  Forall (fun kn => forall s p, good s p (updateTree this s p (snd kn))) fileTree ->
  pending_all good (as_pending this fileTree).
Proof.
  intros H. unfold pending_all, as_pending.
  induction H as [|[k n] rest Hn _ IH]; simpl; constructor; auto.
Qed.

(** A property that [updateTree_body] passes from the nested merges to the
    merge itself holds of every [updateTree]. *)
Lemma updateTree_invariant this
  (good : option object_id -> string -> M ChangeTree -> Prop) :
  (forall fileTree sha path,
      pending_all good fileTree ->
      good sha path (updateTree_body this sha path fileTree)) ->
  (forall sha path, good sha path (unfollowed this "file object" sha path)) ->
  forall fileTree sha path, good sha path (updateTree this sha path fileTree).
Proof.
  intros Hbody Hfile fileTree.
  induction fileTree as [r ps IH|ps IH] using node_nested_ind; intros sha path.
  - apply Hfile.
  - rewrite updateTree_eq. apply Hbody. now apply as_pending_all.
Qed.

Lemma body_all (Q : forall A, M A -> Prop)
  (good : option object_id -> string -> M ChangeTree -> Prop)
  this sha path fileTree :
  passed_on Q ->
  (forall A e, Q A (throw e)) ->
  (forall s, Q response (getTree this s)) ->
  (forall s p m, good s p m -> Q ChangeTree m) ->
  pending_all good fileTree ->
  Q ChangeTree (updateTree_body this sha path fileTree).
Proof.
  intros HQ Hthrow Htree Hgood Hp. unfold updateTree_body.
  apply (passed_bind _ HQ); auto.
  intros tree. apply (passed_heap _ HQ). intros h.
  pose proof (existing_pass_all Q good this h fileTree HQ Hthrow Htree Hp
                (fun s p m => Hgood (Some s) p m) (resp_tree tree)) as He.
  destruct (existing_pass this h fileTree (resp_tree tree)) as [updates added].
  simpl in He. apply (passed_bind _ HQ).
  - apply (passed_all _ HQ). rewrite map_app, Forall_app. split.
    + rewrite Forall_map. exact He.
    + rewrite Forall_map.
      apply (new_pass_all Q good h added HQ (fun p m => Hgood None p m)).
      unfold pending_all. apply Forall_for_in. exact Hp.
  - intros l. apply (passed_bind _ HQ); [apply Hthrow|].
    intros resp. apply (passed_ret _ HQ).
Qed.

(** Such a property, when it holds of the tree reads, holds of every
    merge. *)
Lemma passed_on_updateTree (Q : forall A, M A -> Prop) this :
  passed_on Q ->
  (forall A e, Q A (throw e)) ->
  (forall s, Q response (ajax (GetTree (api_base this) s))) ->
  forall fileTree sha path, Q ChangeTree (updateTree this sha path fileTree).
Proof.
  intros HQ Hthrow Hreq.
  assert (Htree : forall s, Q response (getTree this s)).
  { intros [s|]; simpl; [apply Hreq | apply (passed_ret _ HQ)]. }
  apply (updateTree_invariant this (fun _ _ m => Q ChangeTree m)).
  - intros fileTree sha path Hp.
    apply (body_all Q (fun _ _ m => Q ChangeTree m)); auto.
  - intros. now apply unfollowed_all.
Qed.

(** ** The merge never gets to create its tree *)

Lemma bind_never {A B} (m : M A) (k : A -> M B) :
  (forall a, never_resolves B (k a)) -> never_resolves B (bind m k).
Proof.
  intros H w. unfold bind. destruct (m w) as [[e|a] w1]; simpl; [eauto | apply H].
Qed.

Lemma updateTree_body_never_resolves this sha path fileTree :
  never_resolves ChangeTree (updateTree_body this sha path fileTree).
Proof.
  unfold updateTree_body.
  apply bind_never. intros tree w. rewrite bind_get_heap.
  destruct (existing_pass this (heap w) fileTree (resp_tree tree)) as [updates added].
  revert w. apply bind_never. intros l w.
  unfold bind. rewrite request_undefined. simpl. eauto.
Qed.

Lemma unfollowed_never_resolves this value sha path :
  never_resolves ChangeTree (unfollowed this value sha path).
Proof.
  unfold unfollowed. apply bind_never. intros tree w. simpl. eauto.
Qed.

Lemma updateTree_never_resolves this sha path fileTree :
  never_resolves ChangeTree (updateTree this sha path fileTree).
Proof.
  destruct fileTree as [r ps|ps].
  - apply unfollowed_never_resolves.
  - rewrite updateTree_eq. apply updateTree_body_never_resolves.
Qed.

Lemma updateTree_logs_reads this fileTree sha path :
  logs_only (is_tree_read this) ChangeTree (updateTree this sha path fileTree).
Proof.
  apply (passed_on_updateTree (logs_only (is_tree_read this))).
  - apply logs_only_passed_on.
  - apply logs_only_throw.
  - intros s. apply logs_only_ajax. intros o. exists s. reflexivity.
Qed.

Lemma updateTree_keeps_heap this fileTree sha path :
  keeps_heap ChangeTree (updateTree this sha path fileTree).
Proof.
  apply (passed_on_updateTree keeps_heap).
  - apply keeps_heap_passed_on.
  - apply keeps_heap_throw.
  - intros s. apply keeps_heap_ajax.
Qed.

Lemma updateTree_reads_only this fileTree sha path :
  reads_only ChangeTree (updateTree this sha path fileTree).
Proof.
  apply (passed_on_updateTree reads_only).
  - apply reads_only_passed_on.
  - apply reads_only_throw.
  - intros s. apply reads_only_GetTree.
Qed.

Lemma tree_read_is_no_creation this l :
  Forall (is_tree_read this) l ->
  Forall (fun x => is_tree_creation (fst x) = false) l.
Proof.
  intros H. induction H as [|x l [s Hx] _ IH]; constructor; auto.
  now rewrite Hx.
Qed.

(** *** A merge without a base tree *)

Lemma body_null this path fileTree w :
  updateTree_body this None path fileTree w
  = (match fst (promise_all (map settle (new_pass (heap w) [] (for_in fileTree))) w) with
     | inr _ => inl (TypeError "request")
     | inl e => inl e
     end,
     snd (promise_all (map settle (new_pass (heap w) [] (for_in fileTree))) w)).
Proof.
  unfold updateTree_body. simpl getTree. rewrite bind_ret_l, bind_get_heap.
  simpl. unfold bind.
  destruct (promise_all _ w) as [[e|l] w1]; reflexivity.
Qed.

Lemma null_merge_idle this fileTree path :
  idle ChangeTree (updateTree this None path fileTree).
Proof.
  apply (updateTree_invariant this (fun s _ m => s = None -> idle ChangeTree m));
    auto.
  - intros ft sha p Hp -> w. rewrite body_null. simpl.
    apply (passed_all _ idle_passed_on). rewrite Forall_map.
    apply (new_pass_all idle (fun s _ m => s = None -> idle ChangeTree m)).
    + apply idle_passed_on.
    + intros p0 m H. now apply H.
    + unfold pending_all. apply Forall_for_in. exact Hp.
  - intros sha p -> w. reflexivity.
Qed.

Lemma promise_all_settled {A} (e0 : error) (ms : list (M A)) w :
  Forall (fun m => (exists a, m w = (inr a, w)) \/ m w = (inl e0, w)) ms ->
  (exists l, promise_all ms w = (inr l, w)) \/ promise_all ms w = (inl e0, w).
Proof.
  intros H. induction H as [|m ms Hm _ IH]; simpl.
  - left. eauto.
  - destruct Hm as [[a ->]| ->].
    + destruct IH as [[l ->]| ->]; [left; eauto | right; reflexivity].
    + right. destruct IH as [[l ->]| ->]; reflexivity.
Qed.

Lemma new_pass_Forall (R : string * pending -> Prop) (S : member -> Prop) h added :
  (forall k fileOrDir, R (k, fileOrDir) ->
                       S (pushed h None k "100644" "blob" fileOrDir)) ->
  forall fileTree, Forall R fileTree -> Forall S (new_pass h added fileTree).
Proof.
  intros HS fileTree H.
  induction H as [|[k fileOrDir] rest Hk _ IH]; simpl; [constructor|].
  destruct (is_added k added); auto.
Qed.

Lemma flagged_file_flag h n :
  flagged h n -> file_flag h n = false -> exists ps, n = Dir ps.
Proof.
  intros F E. destruct F as [r ps Hr|ps Hps]; eauto.
  unfold file_flag in E. simpl in E.
  destruct (get_prop "file" ps); congruence.
Qed.

Lemma null_merge_rejects this : forall fileTree path w,
  flagged (heap w) (Dir fileTree) ->
  updateTree this None path (Dir fileTree) w = (inl (TypeError "request"), w).
Proof.
  assert (G : forall n path w,
             flagged (heap w) n -> forall ps, n = Dir ps ->
             updateTree this None path n w = (inl (TypeError "request"), w)).
  { induction n as [r ps IH|ps IH] using node_nested_ind;
      intros path w F ps' E; [discriminate|].
    rewrite updateTree_eq, body_null.
    inversion F as [|? Fps]; subst.
    assert (Hm : Forall (fun m => (exists a, settle m w = (inr a, w)) \/
                                  settle m w = (inl (TypeError "request"), w))
                        (new_pass (heap w) [] (for_in (as_pending this ps)))).
    { apply (new_pass_Forall
               (fun kp => flagged (heap w) (fst (snd kp)) /\
                          forall p ps0, fst (snd kp) = Dir ps0 ->
                                        snd (snd kp) None p w
                                        = (inl (TypeError "request"), w))).
      - intros k [n run] [Fn Hn]. simpl in *. unfold pushed. simpl.
        destruct (file_flag (heap w) n) eqn:Ef; simpl.
        + left. eexists. reflexivity.
        + right. destruct (flagged_file_flag _ _ Fn Ef) as [ps0 ->].
          unfold bind. now rewrite (Hn k ps0 eq_refl).
      - apply Forall_for_in. unfold as_pending. rewrite Forall_map.
        pose proof (Forall_and Fps IH) as B.
        eapply Forall_impl; [|exact B].
        intros [k n] [Fn Hn]. simpl in *. split; auto.
        intros p ps0 E0. eapply Hn; eauto. }
    rewrite <- (Forall_map settle
                  (fun m => (exists a, m w = (inr a, w)) \/
                            m w = (inl (TypeError "request"), w))) in Hm.
    apply promise_all_settled in Hm.
    destruct Hm as [[l Hl]|Hl]; rewrite Hl; reflexivity. }
  intros fileTree path w F. eapply G; eauto.
Qed.

(** ** The array that the merge hands to [Promise.all] *)

Lemma get_prop_None {A} k (l : list (string * A)) :
  get_prop k l = None <-> ~ In k (keys l).
Proof.
  induction l as [|[k' v] l IH]; simpl.
  - split; auto.
  - destruct (String.eqb_spec k' k).
    + split; [discriminate | intros H; exfalso; auto].
    + rewrite IH. split; [intros H [E|I]; auto | auto].
Qed.

Lemma get_prop_key {A} k (l : list (string * A)) v :
  get_prop k l = Some v -> In k (keys l).
Proof.
  intros H. apply get_prop_In in H.
  unfold keys. apply in_map_iff. exists (k, v). auto.
Qed.

Lemma get_prop_as_pending this k fileTree :
  get_prop k (as_pending this fileTree)
  = match get_prop k fileTree with
    | Some n => Some (n, fun s p => updateTree this s p n)
    | None => None
    end.
Proof.
  unfold as_pending.
  induction fileTree as [|[k' n] rest IH]; simpl; auto.
  destruct (String.eqb k' k); auto.
Qed.

Lemma keys_as_pending this fileTree : keys (as_pending this fileTree) = keys fileTree.
Proof.
  unfold as_pending, keys.
  induction fileTree as [|[k n] rest IH]; simpl; congruence.
Qed.

Lemma member_path_pushed h sha path mode type fileOrDir :
  member_path (pushed h sha path mode type fileOrDir) = path.
Proof.
  unfold pushed. destruct (file_flag h (fst fileOrDir)); reflexivity.
Qed.

Lemma existing_pass_added this h (fileTree : list (string * pending)) tree :
  snd (existing_pass this h fileTree tree)
  = map entry_path (filter (consumed fileTree) tree).
Proof.
  induction tree as [|obj rest IH]; simpl; auto.
  destruct (existing_pass this h fileTree rest) as [updates added]; simpl in *.
  unfold consumed at 1.
  destruct (get_prop (entry_path obj) fileTree); simpl; [congruence|].
  destruct (inherited (entry_path obj)); simpl; congruence.
Qed.

Lemma existing_pass_paths this h (fileTree : list (string * pending)) tree :
  map member_path (fst (existing_pass this h fileTree tree))
  = map entry_path (filter (consumed fileTree) tree).
Proof.
  induction tree as [|obj rest IH]; simpl; auto.
  destruct (existing_pass this h fileTree rest) as [updates added]; simpl in *.
  unfold consumed at 1.
  destruct (get_prop (entry_path obj) fileTree); simpl.
  - rewrite member_path_pushed. congruence.
  - destruct (inherited (entry_path obj)); simpl; congruence.
Qed.

Lemma new_pass_paths h added (fileTree : list (string * pending)) :
  map member_path (new_pass h added fileTree)
  = keys (filter (not_added added) fileTree).
Proof.
  induction fileTree as [|[k fileOrDir] rest IH]; simpl; auto.
  unfold not_added at 1. simpl.
  destruct (is_added k added); simpl; auto.
  rewrite member_path_pushed. now f_equal.
Qed.

Lemma merge_members_paths this h (fileTree : list (string * pending)) T :
  map member_path (merge_members this h fileTree T)
  = map entry_path (filter (consumed fileTree) T)
    ++ keys (filter (not_added (map entry_path (filter (consumed fileTree) T)))
                    (for_in fileTree)).
Proof.
  unfold merge_members.
  now rewrite map_app, existing_pass_paths, new_pass_paths, existing_pass_added.
Qed.

Lemma has_path_false p es :
  has_path p es = false <-> ~ In p (map entry_path es).
Proof.
  unfold has_path. induction es as [|e es IH]; simpl.
  - split; auto.
  - destruct (String.eqb_spec (entry_path e) p); simpl.
    + split; [discriminate | intros H; exfalso; auto].
    + rewrite IH. split; [intros H [E|I]; auto | auto].
Qed.

Lemma is_added_false k added :
  is_added k added = false <-> ~ In k added /\ inherited k = false.
Proof.
  unfold is_added. rewrite orb_false_iff.
  assert (G : existsb (String.eqb k) added = false <-> ~ In k added).
  { induction added as [|a added IH]; simpl.
    - split; auto.
    - destruct (String.eqb_spec k a); simpl.
      + split; [discriminate | intros H; exfalso; auto].
      + rewrite IH. split; [intros H [E|I]; auto | auto]. }
  now rewrite G.
Qed.

Lemma NoDup_map_filter {A B} (f : A -> B) (g : A -> bool) l :
  NoDup (map f l) -> NoDup (map f (filter g l)).
Proof.
  induction l as [|a l IH]; simpl; intros N; auto.
  inversion N as [|? ? Ha Hl]; subst. destruct (g a); simpl; auto.
  constructor; auto. intros I. apply Ha.
  apply in_map_iff in I. destruct I as (x & E & Ix).
  apply filter_In in Ix. apply in_map_iff. exists x. tauto.
Qed.

Lemma merge_members_distinct this h (fileTree : list (string * pending)) T :
  NoDup (map entry_path T) ->
  NoDup (keys fileTree) ->
  NoDup (map member_path (merge_members this h fileTree T)).
Proof.
  intros NT NK. rewrite merge_members_paths.
  apply NoDup_app.
  - now apply NoDup_map_filter.
  - unfold keys. apply NoDup_map_filter. now apply keys_for_in.
  - intros p I1 I2. unfold keys in I2.
    apply in_map_iff in I2. destruct I2 as (kp & <- & Ik).
    apply filter_In in Ik. destruct Ik as [_ Nk].
    unfold not_added in Nk. apply negb_true_iff, is_added_false in Nk.
    now apply Nk.
Qed.

(** The path of a member is a key that a read of [fileTree] finds. *)
Lemma merge_members_named this h (fileTree : list (string * pending)) T p :
  In p (map member_path (merge_members this h fileTree T)) ->
  In p (keys fileTree) \/ inherited p = true.
Proof.
  rewrite merge_members_paths. intros I. apply in_app_or in I.
  destruct I as [I|I].
  - apply in_map_iff in I. destruct I as (obj & <- & Io).
    apply filter_In in Io. destruct Io as [_ C]. unfold consumed in C.
    destruct (get_prop (entry_path obj) fileTree) eqn:G; auto.
    left. eapply get_prop_key; eauto.
  - left. unfold keys in *. apply in_map_iff in I. destruct I as (kp & <- & Ik).
    apply filter_In in Ik. destruct Ik as [Ik _].
    apply (proj1 (In_for_in _ _)) in Ik. now apply in_map.
Qed.

Lemma pushed_unresolved this h sha path mode type n :
  unresolved (pushed h sha path mode type (n, fun s p => updateTree this s p n)).
Proof.
  unfold pushed. simpl. destruct (file_flag h n); simpl; auto.
  apply updateTree_never_resolves.
Qed.

Lemma In_as_pending this kp fileTree :
  In kp (as_pending this fileTree) ->
  exists n, kp = (fst kp, (n, fun s p => updateTree this s p n)).
Proof.
  unfold as_pending. intros I. apply in_map_iff in I.
  destruct I as ([k n] & <- & _). simpl. eauto.
Qed.

Lemma merge_members_unresolved this h fileTree T :
  Forall unresolved (merge_members this h (as_pending this fileTree) T).
Proof.
  unfold merge_members. apply Forall_app. split.
  - induction T as [|obj rest IH]; simpl; [constructor|].
    destruct (existing_pass this h (as_pending this fileTree) rest) as [updates added].
    simpl in *. rewrite get_prop_as_pending.
    destruct (get_prop (entry_path obj) fileTree) as [n|].
    + simpl. constructor; auto. apply pushed_unresolved.
    + destruct (inherited (entry_path obj)); simpl; auto.
      constructor; auto. simpl. apply unfollowed_never_resolves.
  - generalize (snd (existing_pass this h (as_pending this fileTree) T)) as added.
    intros added.
    assert (G : Forall (fun kp => exists n,
                            kp = (fst kp, (n, fun s p => updateTree this s p n)))
                       (for_in (as_pending this fileTree))).
    { apply Forall_for_in. apply Forall_forall. intros kp. apply In_as_pending. }
    induction G as [|[k fileOrDir] rest [n Hk] _ IH]; simpl; [constructor|].
    destruct (is_added k added); auto. constructor; auto.
    simpl in Hk. inversion Hk; subst. apply pushed_unresolved.
Qed.

(** When [Promise.all] resolves, every member was an object literal,
    and nothing was sent. *)
Lemma settled_literals ms : forall w updates w',
  Forall unresolved ms ->
  promise_all (map settle ms) w = (inr updates, w') ->
  ms = map Literal updates /\ w' = w.
Proof.
  induction ms as [|m ms IH]; simpl; intros w updates w' U H.
  - inversion H; subst. auto.
  - inversion U as [|? ? Um Ums]; subst.
    destruct m as [u|sha path v run]; simpl in H.
    + destruct (promise_all (map settle ms) w) as [[e|l] w2] eqn:E;
        inversion H; subst.
      destruct (IH _ _ _ Ums E) as [-> ->]. auto.
    + exfalso. simpl in Um. destruct (Um w) as [e He].
      unfold bind in H. destruct (run w) as [[e'|c] w1]; simpl in *.
      * inversion H.
      * discriminate.
Qed.

(** How every merge that gets its tree runs: the members go to
    [Promise.all], and when that resolves the callback of line 169
    throws. *)
Lemma updateTree_run this sha path fileTree w tree w1 :
  getTree this sha w = (inr tree, w1) ->
  updateTree this sha path (Dir fileTree) w
  = (match fst (promise_all
                  (map settle (merge_members this (heap w1) (as_pending this fileTree)
                                             (resp_tree tree))) w1) with
     | inr _ => inl (TypeError "request")
     | inl e => inl e
     end,
     snd (promise_all
            (map settle (merge_members this (heap w1) (as_pending this fileTree)
                                       (resp_tree tree))) w1)).
Proof.
  intros H. rewrite updateTree_eq. unfold updateTree_body, bind at 1.
  rewrite H. rewrite bind_get_heap. unfold merge_members.
  destruct (existing_pass this (heap w1) (as_pending this fileTree) (resp_tree tree))
    as [updates added]. simpl.
  unfold bind.
  destruct (promise_all _ w1) as [[e|l] w2]; reflexivity.
Qed.

Lemma stored_entries_paths us : forall es,
  stored_entries us = Some es -> map entry_path es = map update_path us.
Proof.
  induction us as [|u us IH]; simpl; intros es H.
  - inversion H; subst. reflexivity.
  - destruct (stored_entry u) as [e|] eqn:E; [|discriminate].
    destruct (stored_entries us) as [es'|]; [|discriminate].
    inversion H; subst. simpl. f_equal; auto.
    destruct u as [p m t [s| |n]|c]; simpl in E; inversion E; subst; reflexivity.
Qed.

Lemma nth_error_app_Some {A} (l ex : list A) n x :
  nth_error l n = Some x -> nth_error (l ++ ex) n = Some x.
Proof.
  intros H. rewrite nth_error_app1; auto.
  apply nth_error_Some. congruence.
Qed.

Lemma tree_entries_new objs es :
  tree_entries (objs ++ [Tree es]) (List.length objs) = Some es.
Proof.
  unfold tree_entries. rewrite nth_error_app2 by lia.
  now rewrite Nat.sub_diag.
Qed.

(** ** The merge *)

(** C1: no merge returns a tree.  Whatever the base tree and
    the pending set, [updateTree] fails, and none of its requests creates
    a tree: the callback of line 169 is a [function] expression, so
    [this.request] throws.  At the base tree of the scenarios and the
    pending file [new.txt], whose path is not in the tree, the run reads
    the tree and ends with that [TypeError]. *)
Theorem updateTree_returns_no_tree :
  (forall this sha path fileTree w,
      exists e l,
        fst (updateTree this sha path fileTree w) = inl e /\
        log (snd (updateTree this sha path fileTree w)) = log w ++ l /\
        Forall (fun x => is_tree_creation (fst x) = false) l) /\
  updateTree api_B (Some 4) "/" (Dir [("new.txt", File 0 [])]) (world_merge heap_new)
  = (inl (TypeError "request"), world_read heap_new).
Proof.
  split.
  - intros this sha path fileTree w.
    destruct (updateTree_never_resolves this sha path fileTree w) as [e He].
    destruct (updateTree_logs_reads this fileTree sha path w) as (l & Hl & Pl).
    exists e, l. repeat split; auto.
    eapply tree_read_is_no_creation; eauto.
  - reflexivity.
Qed.

(** X1: a merge only reads.  Every request of [updateTree], at any depth
    and whatever the outcome, is a tree read on the repository of the
    instance; the file objects stay as they were, and so does the store
    unless another writer steps in. *)
Theorem updateTree_sends_only_tree_reads :
  forall this sha path fileTree w,
    let w' := snd (updateTree this sha path fileTree w) in
    (exists l, log w' = log w ++ l /\ Forall (is_tree_read this) l) /\
    heap w' = heap w /\
    (no_race (script w) -> objects w' = objects w /\ head w' = head w).
Proof.
  intros this sha path fileTree w w'. unfold w'. split; [|split].
  - apply updateTree_logs_reads.
  - apply updateTree_keeps_heap.
  - intros N. destruct (updateTree_reads_only this fileTree sha path w) as (_ & _ & R).
    destruct (R N) as (O & H & _). auto.
Qed.

(** X3: a merge without a base tree sends nothing.  On a null [sha],
    with every file object flagged as line 94 leaves it, [updateTree]
    leaves the world as it is and fails with the [TypeError] of line
    170, however deep the pending directories are. *)
Theorem updateTree_on_null_base_rejects :
  forall this path fileTree w,
    flagged (heap w) (Dir fileTree) ->
    updateTree this None path (Dir fileTree) w = (inl (TypeError "request"), w).
Proof. intros this path fileTree w. apply null_merge_rejects. Qed.

Lemma updateTree_on_null_base_rejects_witness :
  updateTree api_B None "/" (Dir tree_docs) (world_merge heap_docs)
  = (inl (TypeError "request"), world_merge heap_docs).
Proof.
  apply (updateTree_on_null_base_rejects api_B "/" tree_docs (world_merge heap_docs)).
  repeat constructor.
Defined.

Lemma In_existing_pass this h (fileTree : list (string * pending)) T obj fileOrDir :
  In obj T ->
  get_prop (entry_path obj) fileTree = Some fileOrDir ->
  In (pushed h (Some (entry_sha obj)) (entry_path obj) (entry_mode obj)
             (entry_type obj) fileOrDir)
     (fst (existing_pass this h fileTree T)).
Proof.
  induction T as [|obj' rest IH]; simpl; [contradiction|].
  intros I G.
  destruct (existing_pass this h fileTree rest) as [updates added]; simpl in *.
  destruct I as [->|I].
  - rewrite G. simpl. auto.
  - destruct (get_prop (entry_path obj') fileTree); simpl; auto.
    destruct (inherited (entry_path obj')); simpl; auto.
Qed.

Lemma In_new_pass h added (fileTree : list (string * pending)) k fileOrDir :
  In (k, fileOrDir) fileTree ->
  is_added k added = false ->
  In (pushed h None k "100644" "blob" fileOrDir) (new_pass h added fileTree).
Proof.
  induction fileTree as [|[k' f'] rest IH]; simpl; [contradiction|].
  intros [E|I] N.
  - inversion E; subst. rewrite N. simpl. auto.
  - destruct (is_added k' added); simpl; auto.
Qed.

Lemma pushed_file h sha path mode type n run :
  file_flag h n = true ->
  pushed h sha path mode type (n, run) = Literal (Entry path mode type (sha_of h n)).
Proof. unfold pushed. simpl. now intros ->. Qed.

Lemma pushed_dir h sha path mode type n run :
  file_flag h n = false ->
  pushed h sha path mode type (n, run) = Promise sha path (Own n) (run sha path).
Proof. unfold pushed. simpl. now intros ->. Qed.

(** C4: the override is built and never stored.  For an entry
    of the existing tree whose path is bound to a file in [fileTree], the
    first loop pushes an entry with the file's [sha] and the mode and
    type of the existing entry; the run goes on to [Promise.all] with the
    members of the two loops, fails, and creates no tree. *)
Theorem updateTree_override_is_never_stored :
  forall this sha path fileTree w tree w1 obj n,
    getTree this sha w = (inr tree, w1) ->
    In obj (resp_tree tree) ->
    get_prop (entry_path obj) fileTree = Some n ->
    file_flag (heap w1) n = true ->
    let members := merge_members this (heap w1) (as_pending this fileTree) (resp_tree tree) in
    let run := updateTree this sha path (Dir fileTree) w in
    In (Literal (Entry (entry_path obj) (entry_mode obj) (entry_type obj)
                       (sha_of (heap w1) n)))
       members /\
    snd run = snd (promise_all (map settle members) w1) /\
    (exists e, fst run = inl e) /\
    exists l, log (snd run) = log w ++ l /\
              Forall (fun x => is_tree_creation (fst x) = false) l.
Proof.
  intros this sha path fileTree w tree w1 obj n Ht Io G F members run.
  split; [|split; [|split]].
  - unfold members, merge_members. apply in_or_app. left.
    rewrite <- (pushed_file (heap w1) (Some (entry_sha obj)) (entry_path obj)
                            (entry_mode obj) (entry_type obj) n
                            (fun s p => updateTree this s p n) F).
    apply In_existing_pass; auto.
    rewrite get_prop_as_pending, G. reflexivity.
  - unfold run. now rewrite (updateTree_run _ _ _ _ _ _ _ Ht).
  - apply updateTree_never_resolves.
  - destruct (updateTree_logs_reads this (Dir fileTree) sha path w) as (l & Hl & Pl).
    exists l. split; auto. eapply tree_read_is_no_creation; eauto.
Qed.

Lemma updateTree_override_is_never_stored_witness :
  let members := merge_members api_B heap_a (as_pending api_B [("a.txt", File 0 [])]) tree_B in
  let run := updateTree api_B (Some 4) "/" (Dir [("a.txt", File 0 [])])
                        (world_merge heap_a) in
  In (Literal (Entry "a.txt" "100755" "blob" (ShaId 5))) members /\
  snd run = snd (promise_all (map settle members) (world_read heap_a)) /\
  (exists e, fst run = inl e) /\
  exists l, log (snd run) = [] ++ l /\
            Forall (fun x => is_tree_creation (fst x) = false) l.
Proof.
  apply (updateTree_override_is_never_stored api_B (Some 4) "/" [("a.txt", File 0 [])]
           (world_merge heap_a) (TreeData tree_B) (world_read heap_a)
           (entry "a.txt" "100755" "blob" 0) (File 0 [])).
  - reflexivity.
  - simpl. auto.
  - reflexivity.
  - reflexivity.
Defined.

Lemma existing_keys_added this h (fileTree : list (string * pending)) T k :
  has_path k T = false -> ~ In k (snd (existing_pass this h fileTree T)).
Proof.
  intros P. rewrite existing_pass_added. intros I.
  apply in_map_iff in I. destruct I as (obj & E & Io).
  apply filter_In in Io. destruct Io as [Io _].
  apply has_path_false in P. apply P. rewrite <- E. now apply in_map.
Qed.

(** What the second loop pushes for a key that the existing tree does
    not have. *)
Lemma new_key_pushed this h fileTree T k n :
  get_prop k fileTree = Some n ->
  has_path k T = false ->
  inherited k = false ->
  In (pushed h None k "100644" "blob" (n, fun s p => updateTree this s p n))
     (merge_members this h (as_pending this fileTree) T).
Proof.
  intros G P Ni. unfold merge_members. apply in_or_app. right.
  apply In_new_pass.
  - apply In_for_in. apply get_prop_In.
    rewrite get_prop_as_pending, G. reflexivity.
  - apply is_added_false. split; auto. now apply existing_keys_added.
Qed.

(** C5: a new directory never becomes an entry.  For a key of
    [fileTree] that the existing tree does not have: a file is pushed as
    an entry with mode 100644, type blob and its [sha]; a nested object
    is pushed as the promise of a merge on a null base tree, which sends
    no request and changes nothing, but fails, so that no entry with
    mode 040000 comes of it; and a key named like a member of
    [Object.prototype] is pushed by neither loop. *)
Theorem updateTree_new_directory_is_never_emitted :
  forall this h fileTree T k n,
    get_prop k fileTree = Some n ->
    has_path k T = false ->
    let members := merge_members this h (as_pending this fileTree) T in
    (inherited k = false -> file_flag h n = true ->
     In (Literal (Entry k "100644" "blob" (sha_of h n))) members) /\
    (inherited k = false -> file_flag h n = false ->
     In (Promise None k (Own n) (updateTree this None k n)) members /\
     forall w, snd (updateTree this None k n w) = w /\
               exists e, fst (updateTree this None k n w) = inl e) /\
    (inherited k = true -> ~ In k (map member_path members)).
Proof.
  intros this h fileTree T k n G P members.
  split; [|split].
  - intros Ni F. pose proof (new_key_pushed this h fileTree T k n G P Ni) as I.
    now rewrite (pushed_file _ _ _ _ _ _ _ F) in I.
  - intros Ni F. split.
    + pose proof (new_key_pushed this h fileTree T k n G P Ni) as I.
      now rewrite (pushed_dir _ _ _ _ _ _ _ F) in I.
    + intros w. split.
      * apply null_merge_idle.
      * apply updateTree_never_resolves.
  - intros Hi I. unfold members in I. rewrite merge_members_paths in I.
    apply in_app_or in I. destruct I as [I|I].
    + rewrite <- existing_pass_added with (this := this) (h := h) in I.
      exact (existing_keys_added this h (as_pending this fileTree) T k P I).
    + unfold keys in I. apply in_map_iff in I. destruct I as (kp & E & Ikp).
      apply filter_In in Ikp. destruct Ikp as [_ N].
      unfold not_added in N. apply negb_true_iff, is_added_false in N.
      rewrite E in N. destruct N. congruence.
Qed.

Lemma updateTree_new_directory_is_never_emitted_witness :
  let members := merge_members api_B heap_docs (as_pending api_B tree_docs) [] in
  In (Promise None "docs" (Own (Dir [("b.txt", File 0 [])]))
              (updateTree api_B None "docs" (Dir [("b.txt", File 0 [])]))) members /\
  forall w, snd (updateTree api_B None "docs" (Dir [("b.txt", File 0 [])]) w) = w /\
            exists e, fst (updateTree api_B None "docs" (Dir [("b.txt", File 0 [])]) w)
                      = inl e.
Proof.
  apply (updateTree_new_directory_is_never_emitted api_B heap_docs tree_docs []
           "docs" (Dir [("b.txt", File 0 [])])); reflexivity.
Defined.

(** C9 (distinct path segments): in a run that has read a base tree of
    distinct paths, on a [fileTree] of distinct keys, the members that
    the two loops hand to [Promise.all] have pairwise distinct paths: a
    key found for an existing entry is set in [added] and not pushed a
    second time.  When [Promise.all] resolves, the list that the callback
    of line 169 receives for the tree creation has these paths; the
    callback then throws, so that no tree is created from it. *)
Theorem updateTree_submits_distinct_paths :
  forall this sha path fileTree w tree w1,
    getTree this sha w = (inr tree, w1) ->
    NoDup (map entry_path (resp_tree tree)) ->
    NoDup (keys fileTree) ->
    let members := merge_members this (heap w1) (as_pending this fileTree) (resp_tree tree) in
    let run := updateTree this sha path (Dir fileTree) w in
    snd run = snd (promise_all (map settle members) w1) /\
    NoDup (map member_path members) /\
    forall updates w',
      promise_all (map settle members) w1 = (inr updates, w') ->
      map update_path updates = map member_path members /\
      NoDup (map update_path updates) /\
      run = (inl (TypeError "request"), w1).
Proof.
  intros this sha path fileTree w tree w1 Ht NT NK members run.
  assert (ND : NoDup (map member_path members)).
  { apply merge_members_distinct; auto. now rewrite keys_as_pending. }
  split; [|split]; auto.
  - unfold run. now rewrite (updateTree_run _ _ _ _ _ _ _ Ht).
  - intros updates w' H.
    destruct (settled_literals members w1 updates w'
                (merge_members_unresolved _ _ _ _) H) as [E ->].
    assert (P : map update_path updates = map member_path members).
    { rewrite E, map_map. reflexivity. }
    split; auto. split; [now rewrite P|].
    unfold run. rewrite (updateTree_run _ _ _ _ _ _ _ Ht).
    fold members. now rewrite H.
Qed.

Lemma updateTree_submits_distinct_paths_witness :
  let members := merge_members api_B heap_two (as_pending api_B tree_two) tree_B in
  let run := updateTree api_B (Some 4) "/" (Dir tree_two) (world_merge heap_two) in
  snd run = snd (promise_all (map settle members) (world_read heap_two)) /\
  NoDup (map member_path members) /\
  forall updates w',
    promise_all (map settle members) (world_read heap_two) = (inr updates, w') ->
    map update_path updates = map member_path members /\
    NoDup (map update_path updates) /\
    run = (inl (TypeError "request"), world_read heap_two).
Proof.
  apply (updateTree_submits_distinct_paths api_B (Some 4) "/" tree_two
           (world_merge heap_two) (TreeData tree_B) (world_read heap_two)).
  - reflexivity.
  - simpl. repeat constructor; simpl; intuition discriminate.
  - simpl. repeat constructor; simpl; intuition discriminate.
Defined.

(** C3, as stated, fails.  Scenario B: the base tree holds [a.txt] and
    [dir], the pending set only [a.txt].  The list that the merge builds
    for the tree creation holds the one entry [a.txt].  A tree created
    from that list without [base_tree] holds [a.txt] alone and has lost
    [dir]; created on the base tree it holds both.  (The run itself
    reads the tree, builds the list and stops at line 170.) *)
Lemma base_tree_hint_is_required :
  let fileTree := [("a.txt", File 0 [])] in
  let members := merge_members api_B heap_a (as_pending api_B fileTree) tree_B in
  let updates := [Entry "a.txt" "100755" "blob" (ShaId 5)] in
  let w := world_read heap_a in
  has_path "dir" tree_B = true /\
  get_prop "dir" fileTree = None /\
  updateTree api_B (Some 4) "/" (Dir fileTree) (world_merge heap_a)
  = (inl (TypeError "request"), w) /\
  members = map Literal updates /\
  promise_all (map settle members) w = (inr updates, w) /\
  serve (PostTree (api_base api_B) None updates) (objects w) (head w)
  = (inr (Created 6),
     objects w ++ [Tree [entry "a.txt" "100755" "blob" 5]], head w) /\
  serve (PostTree (api_base api_B) (Some 4) updates) (objects w) (head w)
  = (inr (Created 6),
     objects w ++ [Tree [entry "dir" "040000" "tree" 2;
                         entry "a.txt" "100755" "blob" 5]], head w).
Proof. repeat split. Qed.

Lemma serve_plain_creation base updates objs hd id objs' hd' es :
  serve (PostTree base None updates) objs hd = (inr (Created id), objs', hd') ->
  tree_entries objs' id = Some es ->
  map entry_path es = map update_path updates.
Proof.
  simpl. destruct (stored_entries updates) as [es0|] eqn:E; intros H T;
    inversion H; subst.
  rewrite tree_entries_new in T. inversion T; subst.
  now apply stored_entries_paths.
Qed.

(** C3 (amended): the hint is what keeps the untouched entries.  The
    members that the merge builds for the tree creation are named by
    [fileTree] alone: the path of each is a key that a read of [fileTree]
    finds.  An entry of the base tree whose path [fileTree] does not have
    is not among them, and a tree created without [base_tree] from the
    list that [Promise.all] resolves to has no entry of that path. *)
Theorem updateTree_hint_supplies_untouched_entries :
  forall this h fileTree T obj,
    In obj T ->
    get_prop (entry_path obj) fileTree = None ->
    inherited (entry_path obj) = false ->
    let members := merge_members this h (as_pending this fileTree) T in
    (forall m, In m members ->
               In (member_path m) (keys fileTree) \/ inherited (member_path m) = true) /\
    ~ In (entry_path obj) (map member_path members) /\
    forall w updates w' base objs hd id objs' hd' es,
      promise_all (map settle members) w = (inr updates, w') ->
      serve (PostTree base None updates) objs hd = (inr (Created id), objs', hd') ->
      tree_entries objs' id = Some es ->
      has_path (entry_path obj) es = false.
Proof.
  intros this h fileTree T obj Io G Ni members.
  assert (Named : forall p, In p (map member_path members) ->
                            In p (keys fileTree) \/ inherited p = true).
  { intros p I. unfold members in I. apply merge_members_named in I.
    now rewrite keys_as_pending in I. }
  assert (Out : ~ In (entry_path obj) (map member_path members)).
  { intros I. destruct (Named _ I) as [K|K]; [|congruence].
    unfold keys in K. apply in_map_iff in K. destruct K as ([k n] & E & Ik).
    simpl in E. subst k.
    assert (N : ~ In (entry_path obj) (keys fileTree) -> False).
    { intros N. apply N. unfold keys. apply in_map_iff.
      exists (entry_path obj, n). auto. }
    apply N. intros K. clear N.
    revert G K. clear. induction fileTree as [|[k' v] rest IH]; simpl; auto.
    destruct (String.eqb_spec k' (entry_path obj)); [discriminate|].
    intros G [E|K]; auto. }
  split; [|split]; auto.
  - intros m I. apply Named. now apply in_map.
  - intros w updates w' base objs hd id objs' hd' es H S Te.
    destruct (settled_literals members w updates w'
                (merge_members_unresolved _ _ _ _) H) as [E _].
    apply has_path_false.
    rewrite (serve_plain_creation _ _ _ _ _ _ _ _ S Te).
    replace (map update_path updates) with (map member_path members); auto.
    rewrite E, map_map. reflexivity.
Qed.

Lemma updateTree_hint_supplies_untouched_entries_witness :
  let members := merge_members api_B heap_a (as_pending api_B [("a.txt", File 0 [])]) tree_B in
  (forall m, In m members ->
             In (member_path m) (keys [("a.txt", File 0 [])]) \/
             inherited (member_path m) = true) /\
  ~ In "dir" (map member_path members) /\
  forall w updates w' base objs hd id objs' hd' es,
    promise_all (map settle members) w = (inr updates, w') ->
    serve (PostTree base None updates) objs hd = (inr (Created id), objs', hd') ->
    tree_entries objs' id = Some es ->
    has_path "dir" es = false.
Proof.
  apply (updateTree_hint_supplies_untouched_entries api_B heap_a
           [("a.txt", File 0 [])] tree_B (entry "dir" "040000" "tree" 2)).
  - simpl. auto.
  - reflexivity.
  - reflexivity.
Defined.

(** ** The uploads *)

Lemma first_error_app l1 l2 :
  first_error (l1 ++ l2)
  = match first_error l1 with Some e => Some e | None => first_error l2 end.
Proof.
  induction l1 as [|[r [e|a]] l1 IH]; simpl; auto.
Qed.

Lemma grows_passed_on : passed_on grows.
Proof.
  split.
  - intros A a w. exists []. simpl. now rewrite app_nil_r.
  - intros A B m k Hm Hk w. unfold bind.
    destruct (Hm w) as (e1 & O1).
    destruct (m w) as [[e|a] w1]; simpl in *; eauto.
    destruct (Hk a w1) as (e2 & O2).
    exists (e1 ++ e2). rewrite O2, O1. now rewrite app_assoc.
  - intros A ms H. induction H as [|m ms Hm _ IH]; intros w; simpl.
    + exists []. simpl. now rewrite app_nil_r.
    + destruct (Hm w) as (e1 & O1).
      destruct (m w) as [[e|a] w1]; simpl in *;
        destruct (IH w1) as (e2 & O2);
        destruct (promise_all ms w1) as [[e3|l] w2]; simpl in *;
        exists (e1 ++ e2); rewrite O2, O1; now rewrite app_assoc.
  - intros B k Hk w. apply (Hk (heap w) w).
Qed.

(** What a blob creation comes to. *)
Lemma ajax_PostBlob base c w :
  (fst (ajax (PostBlob base c) w) = inl TransportError \/
   fst (ajax (PostBlob base c) w) = inl (HttpError 404) \/
   exists id, fst (ajax (PostBlob base c) w) = inr (Created id) /\
              nth_error (objects (snd (ajax (PostBlob base c) w))) id = Some (Blob c)) /\
  (no_race (script w) ->
   no_race (script (snd (ajax (PostBlob base c) w))) /\
   head (snd (ajax (PostBlob base c) w)) = head w /\
   exists bs, objects (snd (ajax (PostBlob base c) w)) = objects w ++ map Blob bs) /\
  exists ex, objects (snd (ajax (PostBlob base c) w)) = objects w ++ ex.
Proof.
  unfold ajax, race, addressed. simpl.
  destruct (script w) as [|[| |] sc]; simpl;
    try destruct (String.eqb base (repo_url w)); simpl.
  all: split; [|split].
  all: try (intros N; inversion N; subst; try congruence).
  all: try (right; right; eexists; split; [reflexivity|];
            rewrite nth_error_app2 by lia; now rewrite Nat.sub_diag).
  all: try (right; left; reflexivity).
  all: try (left; reflexivity).
  all: try (repeat split; try constructor; auto;
            try (exists [c]; reflexivity);
            try (exists []; now rewrite app_nil_r)).
  all: try (eexists; reflexivity).
  all: try (exists []; now rewrite app_nil_r).
  all: try (eexists; rewrite <- app_assoc; reflexivity).
Qed.

Lemma adds_blobs_passed_on : passed_on adds_blobs.
Proof.
  split.
  - intros A a w N. simpl. repeat split; auto. exists []. now rewrite app_nil_r.
  - intros A B m k Hm Hk w N. unfold bind.
    destruct (Hm w N) as (N1 & H1 & b1 & O1).
    destruct (m w) as [[e|a] w1]; simpl in *; eauto.
    destruct (Hk a w1 N1) as (N2 & H2 & b2 & O2).
    split; auto. split; [congruence|].
    exists (b1 ++ b2). rewrite O2, O1, map_app. now rewrite app_assoc.
  - intros A ms H. induction H as [|m ms Hm _ IH]; intros w N; simpl.
    + repeat split; auto. exists []. simpl. now rewrite app_nil_r.
    + destruct (Hm w N) as (N1 & H1 & b1 & O1).
      destruct (m w) as [[e|a] w1]; simpl in *;
        destruct (IH w1 N1) as (N2 & H2 & b2 & O2);
        destruct (promise_all ms w1) as [[e3|l] w2]; simpl in *;
        (split; auto); (split; [congruence|]);
        exists (b1 ++ b2); rewrite O2, O1, map_app; now rewrite app_assoc.
  - intros B k Hk w. apply (Hk (heap w) w).
Qed.

Lemma passed_on_uploadBlob (Q : forall A, M A -> Prop) this :
  passed_on Q ->
  (forall c, Q response (ajax (PostBlob (api_base this) c))) ->
  (forall g, Q unit (modify_heap g)) ->
  forall i, Q nat (uploadBlob this i).
Proof.
  intros HQ Hreq Hmod i. unfold uploadBlob.
  apply (passed_heap _ HQ). intros h.
  apply (passed_bind _ HQ); [apply Hreq|]. intros resp.
  apply (passed_bind _ HQ); [apply Hmod|]. intros _. apply (passed_ret _ HQ).
Qed.

Lemma loop_files_all (Q : M nat -> Prop) this uploads :
  (forall i, Q (ret i)) -> (forall i, Q (uploadBlob this i)) ->
  Forall Q (loop_files (loop this uploads)).
Proof.
  intros Hret Hup. unfold loop.
  assert (G : forall idx st, Forall Q (loop_files st) ->
                             Forall Q (loop_files (fold_left (loop_step this) idx st))).
  { induction idx as [|i idx IH]; simpl; intros st H; auto.
    apply IH. unfold loop_step.
    destruct (file_uploaded (file_at (loop_heap st) i)); auto.
    destruct (pop_filename _) as [parts filename]. simpl.
    apply Forall_app. split; auto. constructor; auto.
    destruct (file_upload _); auto. }
  apply G. constructor.
Qed.

(** A property that the promise combinators pass on, when it holds of
    the blob creations and of the writes to the file objects, holds of
    the uploads of [updateFiles]. *)
Lemma passed_on_uploads (Q : forall A, M A -> Prop) this uploads :
  passed_on Q ->
  (forall c, Q response (ajax (PostBlob (api_base this) c))) ->
  (forall g, Q unit (modify_heap g)) ->
  Q (list nat) (promise_all (loop_files (loop this uploads))).
Proof.
  intros HQ Hreq Hmod. apply (passed_all _ HQ).
  apply loop_files_all.
  - intros i. apply (passed_ret _ HQ).
  - apply passed_on_uploadBlob; auto.
Qed.

(** *** How every run of [updateFiles] goes *)

Lemma updateFiles_undeclared this base branch files options w :
  updateFiles this (mkGlobals None base branch) files options w
  = (inl (ReferenceError "uploads"), w).
Proof. reflexivity. Qed.

Lemma updateFiles_run this uploads base branch files options w :
  updateFiles this (mkGlobals (Some uploads) base branch) files options w
  = (match fst (promise_all (loop_files (loop this uploads))
                            (after_loop this uploads w)) with
     | inl e => inl e
     | inr _ => inl (TypeError "request")
     end,
     snd (promise_all (loop_files (loop this uploads)) (after_loop this uploads w))).
Proof.
  unfold updateFiles. simpl global_uploads. simpl free_identifier at 1.
  rewrite bind_ret_l. cbv zeta. rewrite bind_modify_heap.
  fold (after_loop this uploads w). unfold bind at 1.
  destruct (promise_all (loop_files (loop this uploads)) (after_loop this uploads w))
    as [[e|fs] w1]; reflexivity.
Qed.

Lemma blob_run_passed_on this : passed_on (blob_run this).
Proof.
  split.
  - intros A a w0. exists []. simpl. rewrite app_nil_r. auto.
  - intros A B m k Hm Hk w0. unfold bind.
    destruct (Hm w0) as (l1 & L1 & B1 & P1).
    destruct (m w0) as [[e|a] w1]; simpl in *; eauto.
    destruct (Hk a w1) as (l2 & L2 & B2 & P2).
    exists (l1 ++ l2). split; [rewrite L2, L1; now rewrite app_assoc|].
    split; [apply Forall_app; auto|].
    rewrite first_error_app, P1. exact P2.
  - intros A ms H. induction H as [|m ms Hm _ IH]; intros w0; simpl.
    + exists []. simpl. rewrite app_nil_r. auto.
    + destruct (Hm w0) as (l1 & L1 & B1 & P1).
      destruct (m w0) as [[e|a] w1]; simpl in *;
        destruct (IH w1) as (l2 & L2 & B2 & P2);
        destruct (promise_all ms w1) as [[e2|l] w2]; simpl in *;
        exists (l1 ++ l2);
        (split; [rewrite L2, L1; now rewrite app_assoc|]);
        (split; [apply Forall_app; auto|]);
        rewrite first_error_app, P1; auto.
  - intros B k Hk w0. apply (Hk (heap w0) w0).
Qed.

Lemma uploads_log this uploads : 
  blob_run this (list nat) (promise_all (loop_files (loop this uploads))).
Proof.
  apply (passed_on_uploads (blob_run this)).
  - apply blob_run_passed_on.
  - intros c w0.
    destruct (ajax (PostBlob (api_base this) c) w0) as [o w1] eqn:E.
    pose proof (ajax_PostBlob (api_base this) c w0) as [Ho _].
    rewrite E in Ho. simpl in Ho.
    apply ajax_log in E. destruct E as (L & _).
    exists [(PostBlob (api_base this) c, o)]. simpl. split; auto. split.
    + constructor; auto. exists c. simpl. split; auto.
      destruct Ho as [->| [->| (id & -> & _)]]; eauto.
    + destruct o; reflexivity.
  - intros g w0. exists []. simpl. rewrite app_nil_r. auto.
Qed.

Lemma adds_blobs_uploads this uploads :
  adds_blobs (list nat) (promise_all (loop_files (loop this uploads))).
Proof.
  apply (passed_on_uploads adds_blobs).
  - apply adds_blobs_passed_on.
  - intros c w N. apply ajax_PostBlob. exact N.
  - intros g w N. simpl. repeat split; auto. exists []. now rewrite app_nil_r.
Qed.

Lemma blob_exchange_calls this l :
  Forall (blob_exchange this) l ->
  Forall (is_blob_creation this) l /\
  Forall (fun x => is_patch (fst x) = false /\
                   is_commit_creation (fst x) = false /\
                   is_branch_read (fst x) = false) l /\
  forall e, first_error l = Some e -> e = TransportError \/ e = HttpError 404.
Proof.
  intros H. induction H as [|[c o] l (content & Hc & Ho) _ (IH1 & IH2 & IH3)];
    simpl in *.
  - repeat split; auto. discriminate.
  - subst c. split; [|split].
    + constructor; auto. exists content. reflexivity.
    + constructor; auto.
    + intros e He.
      destruct Ho as [->| [->| (id & ->)]]; auto; inversion He; auto.
Qed.

(** Every run fails; its requests are blob creations; the store gains
    blobs only and the head stays, unless another writer steps in. *)
Lemma updateFiles_fares this globals files options w :
  exists e l,
    fst (updateFiles this globals files options w) = inl e /\
    log (snd (updateFiles this globals files options w)) = log w ++ l /\
    Forall (blob_exchange this) l /\
    (e = ReferenceError "uploads" \/ e = TypeError "request" \/
     first_error l = Some e) /\
    (no_race (script w) ->
     head (snd (updateFiles this globals files options w)) = head w /\
     exists bs, objects (snd (updateFiles this globals files options w))
                = objects w ++ map Blob bs).
Proof.
  destruct globals as [[uploads|] base branch].
  - rewrite updateFiles_run.
    destruct (uploads_log this uploads (after_loop this uploads w)) as (l & L & B & P).
    pose proof (adds_blobs_uploads this uploads (after_loop this uploads w)) as A.
    destruct (promise_all (loop_files (loop this uploads)) (after_loop this uploads w))
      as [[e|fs] w1]; simpl in *.
    + exists e, l. split; auto. split; auto. split; auto. split; auto.
      intros N. destruct (A N) as (_ & H & O). auto.
    + exists (TypeError "request"), l. split; auto. split; auto. split; auto.
      split; auto. intros N. destruct (A N) as (_ & H & O). auto.
  - rewrite updateFiles_undeclared. simpl.
    exists (ReferenceError "uploads"), []. rewrite app_nil_r.
    split; auto. split; auto. split; auto. split; auto.
    intros _. split; auto. exists []. simpl. now rewrite app_nil_r.
Qed.

(** ** The commit *)

(** C2 (ref updated last): in every run of [updateFiles] a ref update is
    sent only after a commit creation has succeeded, and a failed run has
    sent no ref update, has created no commit, and leaves the head where
    it was unless another writer moved it.  The code keeps this by never
    getting that far: the requests of every run are blob creations, the
    store gains nothing but blobs, and every run fails. *)
Theorem updateFiles_updates_ref_last :
  forall this globals files options w r w',
    updateFiles this globals files options w = (r, w') ->
    exists l,
      log w' = log w ++ l /\
      (forall l1 c o l2,
          l = l1 ++ (c, o) :: l2 -> is_patch c = true ->
          exists commit resp,
            In (commit, inr resp) l1 /\ is_commit_creation commit = true) /\
      (forall e, r = inl e ->
                 Forall (fun x => is_patch (fst x) = false /\
                                  is_commit_creation (fst x) = false) l /\
                 (no_race (script w) ->
                  head w' = head w /\
                  exists bs, objects w' = objects w ++ map Blob bs)) /\
      Forall (is_blob_creation this) l /\
      exists e, r = inl e.
Proof.
  intros this globals files options w r w' H.
  destruct (updateFiles_fares this globals files options w)
    as (e & l & He & L & B & _ & S).
  rewrite H in *. simpl in *.
  destruct (blob_exchange_calls this l B) as (B1 & B2 & _).
  exists l. split; auto. split; [|split; [|split]]; eauto.
  - intros l1 c o l2 E P. exfalso. subst l.
    apply Forall_app in B2. destruct B2 as [_ B2].
    inversion B2 as [|? ? [Hp _] _]; subst. simpl in Hp. congruence.
  - intros e' _. split; auto.
    eapply Forall_impl; [|exact B2]. intros x (P1 & P2 & _). auto.
Qed.

Lemma updateFiles_updates_ref_last_witness :
  let run := updateFiles api_B (only_uploads [pending_file "a.txt" "updated"]) []
                         (mkOptions "m") (world_B [Dropped]) in
  exists l,
    log (snd run) = [] ++ l /\
    (forall l1 c o l2,
        l = l1 ++ (c, o) :: l2 -> is_patch c = true ->
        exists commit resp,
          In (commit, inr resp) l1 /\ is_commit_creation commit = true) /\
    (forall e, fst run = inl e ->
               Forall (fun x => is_patch (fst x) = false /\
                                is_commit_creation (fst x) = false) l /\
               (no_race [Dropped] ->
                head (snd run) = 4 /\
                exists bs, objects (snd run) = repo_B ++ map Blob bs)) /\
    Forall (is_blob_creation api_B) l /\
    exists e, fst run = inl e.
Proof.
  apply (updateFiles_updates_ref_last api_B
           (only_uploads [pending_file "a.txt" "updated"]) [] (mkOptions "m")
           (world_B [Dropped])).
  reflexivity.
Defined.

(** C6: no commit is ever created.  Every run of
    [updateFiles] fails; none of its requests creates a commit, and the
    store gains nothing but blobs unless another writer steps in.  With
    the array [uploads] in scope the run uploads the blob and stops at
    the branch read, where [getBranch] is called without its [this]; with
    no such binding it stops at line 82. *)
Theorem updateFiles_creates_no_commit :
  (forall this globals files options w,
      exists e l,
        fst (updateFiles this globals files options w) = inl e /\
        log (snd (updateFiles this globals files options w)) = log w ++ l /\
        Forall (fun x => is_commit_creation (fst x) = false) l /\
        (no_race (script w) ->
         exists bs, objects (snd (updateFiles this globals files options w))
                    = objects w ++ map Blob bs)) /\
  updateFiles api_B (only_uploads [pending_file "a.txt" "updated"])
              [pending_file "a.txt" "updated"] (mkOptions "m") (world_B [])
  = (inl (TypeError "request"),
     mkWorld [mkFile "a.txt" "updated" None (Some 5) true false true]
             (api_base api_B) "master" (repo_B ++ [Blob (Encode "updated")]) 4 []
             [(PostBlob (api_base api_B) (Encode "updated"), inr (Created 5))]) /\
  updateFiles api_B (mkGlobals None None None)
              [pending_file "a.txt" "updated"] (mkOptions "m") (world_B [])
  = (inl (ReferenceError "uploads"), world_B []).
Proof.
  split; [|split; reflexivity].
  intros this globals files options w.
  destruct (updateFiles_fares this globals files options w)
    as (e & l & He & L & B & _ & S).
  destruct (blob_exchange_calls this l B) as (_ & B2 & _).
  exists e, l. repeat split; auto.
  - eapply Forall_impl; [|exact B2]. intros x (_ & P & _). auto.
  - intros N. destruct (S N) as [_ O]. exact O.
Qed.

(** C8: the run ends before the ref update.  No run of
    [updateFiles] fails as not fast-forward: every run fails with another
    error, having sent neither the branch read nor a ref update.  In
    scenario C, where another writer is to move the branch at the third
    request, the run sends one request, the blob creation, and fails
    with the [TypeError] of the unbound [getBranch]. *)
Theorem updateFiles_fails_before_the_ref_update :
  (forall this globals files options w,
      exists e l,
        fst (updateFiles this globals files options w) = inl e /\
        e <> NotFastForward /\
        log (snd (updateFiles this globals files options w)) = log w ++ l /\
        Forall (fun x => is_branch_read (fst x) = false /\
                         is_patch (fst x) = false) l) /\
  updateFiles api_B (only_uploads [pending_file "a.txt" "updated"])
              [pending_file "a.txt" "updated"] (mkOptions "m")
              (world_B [Served; Served; Raced])
  = (inl (TypeError "request"),
     mkWorld [mkFile "a.txt" "updated" None (Some 5) true false true]
             (api_base api_B) "master" (repo_B ++ [Blob (Encode "updated")]) 4
             [Served; Raced]
             [(PostBlob (api_base api_B) (Encode "updated"), inr (Created 5))]).
Proof.
  split; [|reflexivity].
  intros this globals files options w.
  destruct (updateFiles_fares this globals files options w)
    as (e & l & He & L & B & E & _).
  destruct (blob_exchange_calls this l B) as (_ & B2 & B3).
  exists e, l. repeat split; auto.
  - destruct E as [->| [->| E]]; try discriminate.
    destruct (B3 _ E) as [->| ->]; discriminate.
  - eapply Forall_impl; [|exact B2]. intros x (P1 & _ & P2). auto.
Qed.

Lemma get_set_same {A} k (v : A) l : get_prop k (set_prop k v l) = Some v.
Proof.
  induction l as [|[k' v'] l IH]; simpl.
  - now rewrite String.eqb_refl.
  - destruct (String.eqb_spec k' k); simpl.
    + now rewrite String.eqb_refl.
    + destruct (String.eqb_spec k' k); [contradiction | auto].
Qed.

Lemma get_set_other {A} k k' (v : A) l :
  k <> k' -> get_prop k' (set_prop k v l) = get_prop k' l.
Proof.
  intros N. induction l as [|[k0 v0] l IH]; simpl.
  - destruct (String.eqb_spec k k'); [contradiction | auto].
  - destruct (String.eqb_spec k0 k); simpl.
    + subst. destruct (String.eqb_spec k k'); [contradiction | auto].
    + destruct (String.eqb_spec k0 k'); auto.
Qed.

Lemma node_at_nil pos : node_at pos [] = None.
Proof. destruct pos as [|k [|k' rest]]; reflexivity. Qed.

Lemma node_at_step k k' rest fileTree :
  node_at (k :: k' :: rest) fileTree
  = match get_prop k fileTree with
    | Some (Dir ps) => node_at (k' :: rest) ps
    | _ => None
    end.
Proof. reflexivity. Qed.

Lemma app_one_cons {A} (l : list A) x : exists y l', l ++ [x] = y :: l'.
Proof. destruct l; simpl; eauto. Qed.

(** The file sits at its position once placed. *)
Lemma node_at_place_same parts filename leaf : forall fileTree,
  clear_way parts fileTree ->
  node_at (parts ++ [filename]) (place parts filename leaf fileTree) = Some leaf.
Proof.
  induction parts as [|part rest IH]; simpl; intros fileTree C.
  - apply get_set_same.
  - destruct (app_one_cons rest filename) as (y & l' & E). rewrite E.
    rewrite get_set_same. rewrite <- E.
    destruct (get_prop part fileTree) as [[r ps|ps]|]; simpl in *;
      try contradiction; apply IH; auto.
    destruct rest; simpl; auto.
Qed.

(** A position that neither extends the placed one nor is extended by it
    keeps its node. *)
Lemma node_at_place_other parts filename leaf : forall fileTree q,
  ~ (exists ext, parts ++ [filename] = q ++ ext) ->
  ~ (exists ext, q = (parts ++ [filename]) ++ ext) ->
  node_at q (place parts filename leaf fileTree) = node_at q fileTree.
Proof.
  induction parts as [|part rest IH]; simpl; intros fileTree q N1 N2.
  - destruct q as [|k q']; auto.
    destruct (String.eqb_spec filename k) as [->|Nk].
    + exfalso. apply N2. exists q'. reflexivity.
    + destruct q'; simpl; rewrite get_set_other; auto.
  - destruct q as [|k q']; auto.
    destruct (String.eqb_spec part k) as [->|Nk].
    + destruct q' as [|k' q''].
      * exfalso. apply N1. exists (rest ++ [filename]). reflexivity.
      * rewrite !node_at_step, get_set_same.
        assert (N1' : ~ (exists ext, rest ++ [filename] = (k' :: q'') ++ ext)).
        { intros [ext E]. apply N1. exists ext. simpl in *. now rewrite E. }
        assert (N2' : ~ (exists ext, k' :: q'' = (rest ++ [filename]) ++ ext)).
        { intros [ext E]. apply N2. exists ext. simpl in *. now rewrite E. }
        destruct (get_prop k fileTree) as [[r ps|ps]|];
          cbn [with_props props_of].
        -- reflexivity.
        -- now apply IH.
        -- rewrite IH by assumption. apply node_at_nil.
    + destruct q'; simpl; rewrite get_set_other; auto.
Qed.



Lemma file_at_mark_file i h j :
  file_path (file_at (update_at i mark_file h) j) = file_path (file_at h j) /\
  file_uploaded (file_at (update_at i mark_file h) j) = file_uploaded (file_at h j) /\
  file_upload (file_at (update_at i mark_file h) j) = file_upload (file_at h j).
Proof.
  unfold file_at. revert i j.
  induction h as [|f h IH]; intros i j; simpl.
  - destruct j; repeat split; reflexivity.
  - destruct i, j; simpl; try apply IH; repeat split; reflexivity.
Qed.

Lemma loop_tree_step this uploads : forall idx st,
  (forall j, file_path (file_at (loop_heap st) j) = file_path (file_at uploads j) /\
             file_uploaded (file_at (loop_heap st) j)
             = file_uploaded (file_at uploads j)) ->
  loop_fileTree (fold_left (loop_step this) idx st)
  = fold_left (tree_step uploads) idx (loop_fileTree st).
Proof.
  induction idx as [|i idx IH]; simpl; intros st A; auto.
  rewrite IH.
  - f_equal. unfold loop_step, tree_step.
    destruct (A i) as [-> ->].
    destruct (file_uploaded (file_at uploads i)); auto.
    destruct (pop_filename _) as [parts filename]. reflexivity.
  - intros j. unfold loop_step.
    destruct (file_uploaded (file_at (loop_heap st) i)); auto.
    destruct (pop_filename _) as [parts filename]. simpl.
    destruct (file_at_mark_file i (loop_heap st) j) as (-> & -> & _). auto.
Qed.

Lemma loop_fileTree_eq this uploads :
  loop_fileTree (loop this uploads)
  = fold_left (tree_step uploads) (seq 0 (List.length uploads)) [].
Proof. unfold loop. now rewrite (loop_tree_step this uploads). Qed.

Lemma prefix_dec (p q : list string) :
  (exists ext, p = q ++ ext) \/ ~ (exists ext, p = q ++ ext).
Proof.
  revert p. induction q as [|k q IH]; intros p.
  - left. exists p. reflexivity.
  - destruct p as [|k' p].
    + right. intros [ext E]. discriminate.
    + destruct (string_dec k' k) as [->|N].
      * destruct (IH p) as [[ext ->]|Np].
        -- left. exists ext. reflexivity.
        -- right. intros [ext E]. injection E as E. eauto.
      * right. intros [ext E]. injection E as E _. contradiction.
Qed.


Lemma position_eq path :
  exists parts filename,
    pop_filename (path_parts path) = (parts, filename) /\
    position path = parts ++ [filename].
Proof.
  unfold position. destruct (pop_filename (path_parts path)) as [parts filename].
  eauto.
Qed.








Lemma file_at_update_same i g h :
  i < List.length h -> file_at (update_at i g h) i = g (file_at h i).
Proof.
  unfold file_at. revert i. induction h as [|f h IH]; intros i L; simpl in *.
  - lia.
  - destruct i; simpl; auto. apply IH. lia.
Qed.

Lemma file_at_update_other i j g h :
  i <> j -> file_at (update_at i g h) j = file_at h j.
Proof.
  unfold file_at. revert i j. induction h as [|f h IH]; intros i j N; simpl.
  - reflexivity.
  - destruct i, j; simpl; auto; try congruence.
Qed.

Lemma same_but_file_refl f : same_but_file f f.
Proof. repeat split. Qed.

Lemma mark_file_same_but_file i h j :
  same_but_file (file_at (update_at i mark_file h) j) (file_at h j).
Proof.
  unfold file_at. revert i j.
  induction h as [|f h IH]; intros i j; simpl.
  - destruct j; apply same_but_file_refl.
  - destruct i, j; simpl; try apply IH; repeat split; reflexivity.
Qed.

Lemma loop_step_fold this uploads : forall idx st,
  (forall j, same_but_file (file_at (loop_heap st) j) (file_at uploads j)) ->
  (forall j, same_but_file
               (file_at (loop_heap (fold_left (loop_step this) idx st)) j)
               (file_at uploads j)) /\
  loop_files (fold_left (loop_step this) idx st)
  = loop_files st
    ++ map (upload_member this uploads)
           (filter (fun i => negb (file_uploaded (file_at uploads i))) idx).
Proof.
  induction idx as [|i idx IH]; simpl; intros st A.
  - split; auto. now rewrite app_nil_r.
  - destruct (A i) as (_ & _ & _ & _ & Eu & El).
    assert (A' : forall j, same_but_file (file_at (loop_heap (loop_step this st i)) j)
                                         (file_at uploads j)).
    { intros j. unfold loop_step.
      destruct (file_uploaded (file_at (loop_heap st) i)); auto.
      destruct (pop_filename _) as [parts filename]. simpl.
      destruct (mark_file_same_but_file i (loop_heap st) j) as (P1 & P2 & P3 & P4 & P5 & P6).
      destruct (A j) as (Q1 & Q2 & Q3 & Q4 & Q5 & Q6).
      repeat split; congruence. }
    destruct (IH _ A') as [IH1 IH2]. split; auto.
    rewrite IH2. unfold loop_step. rewrite Eu, El.
    destruct (file_uploaded (file_at uploads i)); simpl; auto.
    destruct (pop_filename _) as [parts filename]. simpl.
    rewrite <- app_assoc. reflexivity.
Qed.

Lemma loop_files_eq this uploads :
  loop_files (loop this uploads) = map (upload_member this uploads) (pending_indices uploads).
Proof.
  unfold loop, pending_indices.
  destruct (loop_step_fold this uploads (seq 0 (List.length uploads))
              (mkLoop uploads [] [])) as [_ E].
  - intros j. apply same_but_file_refl.
  - exact E.
Qed.

Lemma loop_heap_same_but_file this uploads j :
  same_but_file (file_at (loop_heap (loop this uploads)) j) (file_at uploads j).
Proof.
  unfold loop.
  apply (loop_step_fold this uploads (seq 0 (List.length uploads)) (mkLoop uploads [] [])).
  intros k. apply same_but_file_refl.
Qed.








Lemma length_update_at i g h : List.length (update_at i g h) = List.length h.
Proof.
  revert i. induction h as [|f h IH]; intros i; simpl; auto.
  destruct i; simpl; auto.
Qed.

Lemma pending_indices_spec uploads i :
  In i (pending_indices uploads) <->
  i < List.length uploads /\ file_uploaded (file_at uploads i) = false.
Proof.
  unfold pending_indices. rewrite filter_In, in_seq, negb_true_iff. simpl.
  split; intros H; repeat split; try tauto; lia.
Qed.

Lemma loop_heap_length this uploads :
  List.length (loop_heap (loop this uploads)) = List.length uploads.
Proof.
  unfold loop.
  assert (G : forall idx st,
             List.length (loop_heap (fold_left (loop_step this) idx st))
             = List.length (loop_heap st)).
  { induction idx as [|i idx IH]; simpl; intros st; auto.
    rewrite IH. unfold loop_step.
    destruct (file_uploaded (file_at (loop_heap st) i)); auto.
    destruct (pop_filename _) as [parts filename]. simpl.
    apply length_update_at. }
  apply G.
Qed.

Lemma tree_step_skips uploads : forall idx fileTree,
  (forall i, In i idx -> file_uploaded (file_at uploads i) = true) ->
  fold_left (tree_step uploads) idx fileTree = fileTree.
Proof.
  induction idx as [|i idx IH]; simpl; intros fileTree H; auto.
  unfold tree_step at 2. rewrite (H i) by auto. apply IH. auto.
Qed.





Lemma place_under_file p : forall parts filename leaf fileTree r ps ext,
  node_at p fileTree = Some (File r ps) ->
  ext <> [] ->
  parts ++ [filename] = p ++ ext ->
  (exists ps', node_at p (place parts filename leaf fileTree) = Some (File r ps')) /\
  node_at (p ++ ext) (place parts filename leaf fileTree) = None.
Proof.
  induction p as [|k rest IH]; intros parts filename leaf fileTree r ps ext H Ne E.
  - discriminate.
  - destruct parts as [|part parts'].
    { simpl in E. injection E as _ E. destruct rest; destruct ext; try congruence;
        discriminate. }
    simpl in E. injection E as -> E.
    destruct rest as [|k' rest'].
    + simpl in H. simpl place. rewrite H. split.
      * simpl. rewrite get_set_same. eauto.
      * simpl. destruct ext; [congruence|]. now rewrite get_set_same.
    + rewrite node_at_step in H.
      destruct (get_prop k fileTree) as [[r0 ps0|ps1]|] eqn:G; try discriminate.
      destruct (IH parts' filename leaf ps1 r ps ext H Ne E) as [(ps' & H1) H2].
      simpl place. rewrite G. cbn [with_props props_of]. split.
      * exists ps'. rewrite node_at_step, get_set_same. exact H1.
      * change ((k :: k' :: rest') ++ ext) with (k :: k' :: (rest' ++ ext)).
        rewrite node_at_step, get_set_same. exact H2.
Qed.

Lemma clear_way_or_file parts filename : forall fileTree,
  clear_way parts fileTree \/
  exists p ext r ps, ext <> [] /\ parts ++ [filename] = p ++ ext /\
                     node_at p fileTree = Some (File r ps).
Proof.
  induction parts as [|part rest IH]; simpl; intros fileTree; auto.
  destruct (get_prop part fileTree) as [[r ps|ps]|] eqn:G; auto.
  - right. exists [part], (rest ++ [filename]), r, ps. simpl. repeat split; auto.
    destruct rest; discriminate.
  - destruct (IH ps) as [C|(p & ext & r & ps' & Ne & E & H)]; auto.
    right. destruct p as [|k p']; [discriminate|].
    exists (part :: k :: p'), ext, r, ps'. repeat split; auto.
    + simpl. now rewrite E.
    + rewrite node_at_step, G. exact H.
Qed.

Lemma covered_after_place parts filename r fileTree :
  covered (parts ++ [filename]) (place parts filename (File r []) fileTree).
Proof.
  destruct (clear_way_or_file parts filename fileTree)
    as [C|(p & ext & r0 & ps & Ne & E & H)].
  - exists (parts ++ [filename]), [], r, []. split; [now rewrite app_nil_r|].
    now apply node_at_place_same.
  - destruct (place_under_file p parts filename (File r []) fileTree r0 ps ext H Ne E)
      as [(ps' & H1) _].
    exists p, ext, r0, ps'. auto.
Qed.

Lemma covered_longer q ext fileTree : covered q fileTree -> covered (q ++ ext) fileTree.
Proof.
  intros (p & e & r & ps & -> & H). exists p, (e ++ ext), r, ps.
  split; auto. now rewrite app_assoc.
Qed.

Lemma covered_place q parts filename r fileTree :
  covered q fileTree -> covered q (place parts filename (File r []) fileTree).
Proof.
  intros (p & ext & r0 & ps & -> & H).
  destruct (prefix_dec p (parts ++ [filename])) as [[e E]|N1].
  - (* the new file sits at or above the old one *)
    subst p. rewrite <- app_assoc. apply covered_longer, covered_after_place.
  - destruct (prefix_dec (parts ++ [filename]) p) as [[e E]|N2].
    + destruct e as [|x e].
      * exfalso. apply N1. exists []. now rewrite app_nil_r in *.
      * destruct (place_under_file p parts filename (File r []) fileTree r0 ps
                    (x :: e) H) as [(ps' & H1) _]; auto; try discriminate.
        exists p, ext, r0, ps'. auto.
    + exists p, ext, r0, ps. split; auto.
      rewrite node_at_place_other; auto.
Qed.

Lemma covered_tree_step uploads q fileTree i :
  covered q fileTree -> covered q (tree_step uploads fileTree i).
Proof.
  intros C. unfold tree_step.
  destruct (file_uploaded (file_at uploads i)); auto.
  destruct (pop_filename _) as [parts filename]. now apply covered_place.
Qed.

Lemma covered_fold uploads q : forall idx fileTree,
  covered q fileTree -> covered q (fold_left (tree_step uploads) idx fileTree).
Proof.
  induction idx as [|i idx IH]; simpl; intros fileTree C; auto.
  apply IH. now apply covered_tree_step.
Qed.

Lemma covered_once_placed uploads j : forall idx fileTree,
  In j idx ->
  file_uploaded (file_at uploads j) = false ->
  covered (position (file_path (file_at uploads j)))
          (fold_left (tree_step uploads) idx fileTree).
Proof.
  induction idx as [|i idx IH]; simpl; intros fileTree I U; [contradiction|].
  destruct I as [->|I]; [|now apply IH].
  apply covered_fold. unfold tree_step. rewrite U.
  destruct (position_eq (file_path (file_at uploads j)))
    as (parts & filename & -> & ->).
  apply covered_after_place.
Qed.

Lemma node_at_beneath_file p : forall fileTree r ps ext,
  node_at p fileTree = Some (File r ps) -> ext <> [] ->
  node_at (p ++ ext) fileTree = None.
Proof.
  induction p as [|k rest IH]; intros fileTree r ps ext H Ne; [discriminate|].
  destruct rest as [|k' rest'].
  - simpl in H. destruct ext; [congruence|]. simpl. now rewrite H.
  - rewrite node_at_step in H.
    change ((k :: k' :: rest') ++ ext) with (k :: k' :: (rest' ++ ext)).
    rewrite node_at_step.
    destruct (get_prop k fileTree) as [[r0 ps0|ps1]|]; try discriminate.
    eapply IH; eauto.
Qed.

(** X14: when the path of a pending file runs through the path of another
    pending file, whichever comes first in the array, the file with the
    longer path gets no leaf in the directory tree that the loop hands to
    the merge. *)
Theorem loop_drops_a_file_beneath_another :
  forall this uploads i j,
    j < List.length uploads ->
    file_uploaded (file_at uploads j) = false ->
    strict_prefix (position (file_path (file_at uploads j)))
                  (position (file_path (file_at uploads i))) ->
    node_at (position (file_path (file_at uploads i)))
            (loop_fileTree (loop this uploads)) = None /\
    ~ occupies_leaf (file_path (file_at uploads i)) (loop_fileTree (loop this uploads)).
Proof.
  intros this uploads i j Lj Uj (ext & Ne & E).
  assert (N : node_at (position (file_path (file_at uploads i)))
                      (loop_fileTree (loop this uploads)) = None).
  { rewrite loop_fileTree_eq.
    destruct (covered_once_placed uploads j (seq 0 (List.length uploads)) [])
      as (p & e & r & ps & Ep & H); auto.
    { apply in_seq. lia. }
    rewrite E, Ep, <- app_assoc.
    eapply node_at_beneath_file; eauto.
    destruct e; [simpl; auto | discriminate]. }
  split; auto.
  intros (r & ps & H). congruence.
Qed.

Lemma loop_drops_a_file_beneath_another_witness :
  node_at (position "a/b.txt") (loop_fileTree (loop api_B uploads_clash)) = None /\
  ~ occupies_leaf "a/b.txt" (loop_fileTree (loop api_B uploads_clash)).
Proof.
  apply (loop_drops_a_file_beneath_another api_B uploads_clash 0 1).
  - simpl. lia.
  - reflexivity.
  - exists ["b.txt"]. split; [discriminate | reflexivity].
Defined.

Lemma extend_object_get k : forall src target,
  NoDup (keys src) ->
  get_prop k (extend_object target src)
  = match get_prop k src with Some v => Some v | None => get_prop k target end.
Proof.
  unfold extend_object.
  induction src as [|[k0 v0] src IH]; simpl; intros target N; auto.
  inversion N; subst. rewrite IH by auto.
  destruct (String.eqb_spec k0 k) as [->|Nk].
  - assert (G : get_prop k src = None) by now apply get_prop_None.
    rewrite G. apply get_set_same.
  - destruct (get_prop k src); auto. now apply get_set_other.
Qed.

(** X15: the settings that [request] hands on keep every header of the
    caller and add the bearer token of the instance as [Authorization],
    unless the caller sets that header itself; the content type is JSON
    unless the caller sets one. *)
Theorem request_adds_the_bearer_token :
  forall this settings,
    NoDup (keys (set_headers settings)) ->
    (forall name value,
        get_prop name (set_headers settings) = Some value ->
        get_prop name (set_headers (ajax_settings this (Some settings)))
        = Some value) /\
    (get_prop "Authorization" (set_headers settings) = None ->
     get_prop "Authorization" (set_headers (ajax_settings this (Some settings)))
     = Some (String.append "Bearer " (api_token this))) /\
    set_contentType (ajax_settings this (Some settings))
    = match set_contentType settings with
      | Some t => Some t
      | None => Some "application/json"
      end.
Proof.
  intros this settings N. unfold ajax_settings, extend. simpl. repeat split.
  - intros name value G. now rewrite extend_object_get, G.
  - intros G. rewrite extend_object_get, G by auto. reflexivity.
Qed.

Lemma request_adds_the_bearer_token_witness :
  (forall name value,
      get_prop name [("Accept", "text/plain")] = Some value ->
      get_prop name
        (set_headers
           (ajax_settings (mkGithubAPI "b" "master" "t0k")
              (Some (mkSettings [("Accept", "text/plain")] None [] None None))))
      = Some value) /\
  (get_prop "Authorization" [("Accept", "text/plain")] = None ->
   get_prop "Authorization"
     (set_headers
        (ajax_settings (mkGithubAPI "b" "master" "t0k")
           (Some (mkSettings [("Accept", "text/plain")] None [] None None))))
   = Some (String.append "Bearer " "t0k")) /\
  set_contentType
    (ajax_settings (mkGithubAPI "b" "master" "t0k")
       (Some (mkSettings [("Accept", "text/plain")] None [] None None)))
  = Some "application/json".
Proof.
  apply (request_adds_the_bearer_token
           (mkGithubAPI "b" "master" "t0k")
           (mkSettings [("Accept", "text/plain")] None [] None None)).
  simpl. repeat constructor. simpl. tauto.
Defined.

(** X16: for every configuration and path, [readFile] and [listFiles]
    address the same url, the contents of the path under the configured
    repository, and read the configured branch with the bearer token of
    the credentials; [readFile] alone asks for the raw content and
    switches the cache off. *)
Theorem readFile_and_listFiles_requests :
  forall config credentials path,
    let this := constructor config credentials in
    fst (readFile this path)
    = String.append "https://api.github.com/repos/"
        (String.append (config_repo config) (String.append "/contents/" path)) /\
    fst (listFiles this path) = fst (readFile this path) /\
    set_data (snd (readFile this path)) = [("ref", config_branch config)] /\
    set_data (snd (listFiles this path)) = [("ref", config_branch config)] /\
    set_headers (snd (readFile this path))
    = [("Authorization", String.append "Bearer " (github_access_token credentials));
       ("Accept", "application/vnd.github.VERSION.raw")] /\
    set_headers (snd (listFiles this path))
    = [("Authorization", String.append "Bearer " (github_access_token credentials))] /\
    set_cache (snd (readFile this path)) = Some false /\
    set_cache (snd (listFiles this path)) = None.
Proof.
  intros config credentials path this. repeat split.
Qed.

(** ** The blob uploads *)

Lemma filter_none {A} (f : A -> bool) l :
  (forall x, In x l -> f x = false) -> filter f l = [].
Proof.
  induction l as [|x l IH]; simpl; intros H; auto.
  rewrite (H x) by auto. auto.
Qed.

Lemma uploadBlob_effect this file w :
  file < List.length (heap w) ->
  match uploadBlob this file w with
  | (inr file', w') =>
      file' = file /\
      exists id,
        nth_error (objects w') id
        = Some (Blob (blob_content (file_at (heap w) file))) /\
        file_at (heap w') file = mark_uploaded id (file_at (heap w) file) /\
        List.length (heap w') = List.length (heap w) /\
        forall other, other <> file ->
                      file_at (heap w') other = file_at (heap w) other
  | (inl e, w') => heap w' = heap w /\ (e = TransportError \/ e = HttpError 404)
  end.
Proof.
  intros L. unfold uploadBlob.
  rewrite bind_get_heap. unfold request, bind at 1.
  pose proof (ajax_PostBlob (api_base this) (blob_content (file_at (heap w) file)) w)
    as [Ho _].
  destruct (ajax (PostBlob (api_base this) (blob_content (file_at (heap w) file))) w)
    as [[e|resp] w1] eqn:E; simpl in Ho.
  - apply ajax_log in E. destruct E as (_ & Hh & _). split; auto.
    destruct Ho as [Ho| [Ho| (id & Ho & _)]]; inversion Ho; auto.
  - destruct Ho as [Ho| [Ho| (id & Ho & Hb)]]; try discriminate.
    inversion Ho; subst resp.
    apply ajax_log in E. destruct E as (_ & Hh & _).
    simpl. split; auto. exists id. rewrite Hh. repeat split; auto.
    + now apply file_at_update_same.
    + apply length_update_at.
    + intros other N. apply file_at_update_other. auto.
Qed.



Lemma mark_uploaded_blob_content i s h j :
  blob_content (file_at (update_at i (mark_uploaded s) h) j)
  = blob_content (file_at h j).
Proof.
  unfold file_at. revert i j.
  induction h as [|f h IH]; intros i j; simpl.
  - destruct j; reflexivity.
  - destruct i, j; simpl; auto.
Qed.

Lemma loop_heap_holds_contents this uploads w :
  holds_contents uploads (after_loop this uploads w).
Proof.
  intros j. simpl.
  destruct (loop_heap_same_but_file this uploads j) as (_ & Hc & Hb & _).
  unfold blob_content. now rewrite Hc, Hb.
Qed.

Lemma upload_member_log this uploads i w :
  holds_contents uploads w ->
  holds_contents uploads (snd (upload_member this uploads i w)) /\
  exists l,
    log (snd (upload_member this uploads i w)) = log w ++ l /\
    map fst l = if file_upload (file_at uploads i) then []
                else [PostBlob (api_base this) (blob_content (file_at uploads i))].
Proof.
  intros C. unfold upload_member.
  destruct (file_upload (file_at uploads i)).
  - simpl. split; auto. exists []. now rewrite app_nil_r.
  - unfold uploadBlob. rewrite bind_get_heap. rewrite (C i).
    unfold request.
    match goal with |- context [bind ?m ?k w] =>
      change (bind m k w)
        with (match m w with
              | (inr a, w') => k a w'
              | (inl e, w') => (inl e, w')
              end) end.
    destruct (ajax (PostBlob (api_base this) (blob_content (file_at uploads i))) w)
      as [[e|resp] w1] eqn:E;
      apply ajax_log in E; destruct E as (L & Hh & _); simpl.
    + split; [intros j; rewrite Hh; apply C|].
      eexists. split; [exact L|reflexivity].
    + unfold bind, modify_heap, ret. simpl. split.
      * intros j. simpl. rewrite mark_uploaded_blob_content, Hh. apply C.
      * eexists. split; [exact L|reflexivity].
Qed.



Lemma all_run_grows {A} (ms : list (M A)) w l w' :
  Forall (grows A) ms -> all_run ms w l w' ->
  exists ex, objects w' = objects w ++ ex.
Proof.
  intros S R. induction R as [w|m ms w a w1 l w2 E _ IH].
  - exists []. now rewrite app_nil_r.
  - inversion S as [|? ? Sm Sms]; subst.
    destruct (Sm w) as [e1 O1]. rewrite E in O1. simpl in O1.
    destruct (IH Sms) as [e2 O2].
    exists (e1 ++ e2). rewrite O2, O1. now rewrite app_assoc.
Qed.

Lemma upload_member_grows this uploads i : grows nat (upload_member this uploads i).
Proof.
  unfold upload_member. destruct (file_upload (file_at uploads i)).
  - apply (passed_ret _ grows_passed_on).
  - apply (passed_on_uploadBlob grows).
    + apply grows_passed_on.
    + intros c w. apply ajax_PostBlob.
    + intros g w. exists []. simpl. now rewrite app_nil_r.
Qed.

Lemma upload_member_ok this uploads i w a w1 :
  i < List.length (heap w) ->
  holds_contents uploads w ->
  upload_member this uploads i w = (inr a, w1) ->
  List.length (heap w1) = List.length (heap w) /\
  holds_contents uploads w1 /\
  (forall j, j <> i -> file_at (heap w1) j = file_at (heap w) j) /\
  (file_upload (file_at uploads i) = false ->
   exists id, file_at (heap w1) i = mark_uploaded id (file_at (heap w) i) /\
              nth_error (objects w1) id
              = Some (Blob (blob_content (file_at uploads i)))).
Proof.
  intros L C H.
  pose proof (upload_member_log this uploads i w C) as [C1 _].
  rewrite H in C1. simpl in C1.
  unfold upload_member in H.
  destruct (file_upload (file_at uploads i)) eqn:U.
  - inversion H; subst. repeat split; auto. discriminate.
  - pose proof (uploadBlob_effect this i w L) as E. rewrite H in E.
    destruct E as (_ & id & Ho & Hi & Hl & Hother).
    split; auto. split; auto. split; auto.
    intros _. exists id. rewrite <- (C i). split; auto.
Qed.

Lemma uploads_run this uploads : forall idx w0 fs w1,
  NoDup idx ->
  (forall i, In i idx -> i < List.length (heap w0)) ->
  holds_contents uploads w0 ->
  all_run (map (upload_member this uploads) idx) w0 fs w1 ->
  List.length (heap w1) = List.length (heap w0) /\
  (forall j, ~ In j idx -> file_at (heap w1) j = file_at (heap w0) j) /\
  (forall i, In i idx -> file_upload (file_at uploads i) = false ->
             exists id, file_at (heap w1) i = mark_uploaded id (file_at (heap w0) i) /\
                        nth_error (objects w1) id
                        = Some (Blob (blob_content (file_at uploads i)))).
Proof.
  induction idx as [|i idx IH]; intros w0 fs w1 N L C R; simpl in R.
  - inversion R; subst. split; auto. split; auto. intros i [].
  - inversion R as [|m ms wx a wa l wy Hm Hrest]; subst.
    inversion N as [|? ? Ni Nidx]; subst.
    destruct (upload_member_ok this uploads i w0 a wa (L i (or_introl eq_refl)) C Hm)
      as (La & Ca & Oa & Ua).
    destruct (IH wa l w1 Nidx) as (IH0 & IH1 & IH2); auto.
    { intros j Ij. rewrite La. apply L. now right. }
    split; [congruence|]. split.
    + intros j Nj. rewrite IH1, Oa; auto.
      * intros E. apply Nj. now left.
      * intros Ij. apply Nj. now right.
    + intros j [<-|Ij] Uj.
      * destruct (Ua Uj) as (id & Hs & Ho). exists id.
        rewrite (IH1 i Ni). split; auto.
        destruct (all_run_grows (map (upload_member this uploads) idx) wa l w1)
          as [ex O]; auto.
        { apply Forall_forall. intros m Im. apply in_map_iff in Im.
          destruct Im as (k & <- & _). apply upload_member_grows. }
        rewrite O. now apply nth_error_app_Some.
      * destruct (IH2 j Ij Uj) as (id & Hs & Ho). exists id. split; auto.
        rewrite Hs, Oa; auto. intros E. subst j. contradiction.
Qed.

Lemma loop_nothing_pending this uploads :
  (forall i, i < List.length uploads -> file_uploaded (file_at uploads i) = true) ->
  loop_fileTree (loop this uploads) = [] /\ loop_files (loop this uploads) = [] /\
  loop_heap (loop this uploads) = uploads.
Proof.
  intros H. split; [|split].
  - rewrite loop_fileTree_eq. apply tree_step_skips.
    intros i Ii. apply in_seq in Ii. apply H. lia.
  - rewrite loop_files_eq. unfold pending_indices. rewrite filter_none; auto.
    intros i Ii. apply in_seq in Ii. rewrite H by lia. reflexivity.
  - unfold loop.
    assert (G : forall idx st,
               (forall i, In i idx ->
                          file_uploaded (file_at (loop_heap st) i) = true) ->
               loop_heap (fold_left (loop_step this) idx st) = loop_heap st).
    { induction idx as [|i idx IH]; simpl; intros st Hs; auto.
      assert (E : loop_step this st i = st).
      { unfold loop_step. rewrite (Hs i) by auto. reflexivity. }
      rewrite E. apply IH. auto. }
    rewrite G; auto. simpl. intros i Ii. apply in_seq in Ii. apply H. lia.
Qed.

(** X12: what a run leaves on the file objects.  When a run of
    [updateFiles] has got past its uploads, failing with the [TypeError]
    of the branch read, every file that it had to upload is marked
    uploaded.  A second [updateFiles] over the same file objects skips
    such a file at line 84: with no file carrying [upload], its loop
    builds an empty directory tree and uploads nothing. *)
Theorem updateFiles_leaves_files_marked_uploaded :
  forall this uploads base branch files options w,
    let run := updateFiles this (mkGlobals (Some uploads) base branch)
                           files options w in
    fst run = inl (TypeError "request") ->
    (forall i, i < List.length uploads ->
               file_upload (file_at uploads i) = false ->
               file_uploaded (file_at (heap (snd run)) i) = true) /\
    ((forall i, i < List.length uploads ->
                file_upload (file_at uploads i) = false) ->
     loop_fileTree (loop this (heap (snd run))) = [] /\
     loop_files (loop this (heap (snd run))) = []).
Proof.
  intros this uploads base branch files options w run. unfold run.
  rewrite updateFiles_run. simpl.
  destruct (uploads_log this uploads (after_loop this uploads w)) as (lu & _ & B & P).
  destruct (promise_all (loop_files (loop this uploads)) (after_loop this uploads w))
    as [[e|fs] w1] eqn:E; simpl in *.
  - intros He. inversion He; subst e.
    destruct (blob_exchange_calls this lu B) as (_ & _ & B3).
    destruct (B3 _ P) as [X|X]; discriminate.
  - intros _. rewrite loop_files_eq in E. apply promise_all_ok in E.
    destruct (uploads_run this uploads (pending_indices uploads)
                          (after_loop this uploads w) fs w1)
      as (Hl & Hu & Hm); auto.
    { unfold pending_indices. apply NoDup_filter, seq_NoDup. }
    { intros j Ij. apply pending_indices_spec in Ij. simpl.
      rewrite loop_heap_length. tauto. }
    { apply loop_heap_holds_contents. }
    assert (A : forall i, i < List.length uploads ->
                          file_upload (file_at uploads i) = false ->
                          file_uploaded (file_at (heap w1) i) = true).
    { intros i Li Ui.
      destruct (file_uploaded (file_at uploads i)) eqn:Up.
      - rewrite Hu.
        + simpl.
          destruct (loop_heap_same_but_file this uploads i) as (_ & _ & _ & _ & -> & _).
          exact Up.
        + intros Ii. apply pending_indices_spec in Ii. destruct Ii. congruence.
      - destruct (Hm i) as (id & -> & _); auto.
        apply pending_indices_spec. auto. }
    split; auto.
    intros No.
    destruct (loop_nothing_pending this (heap w1)) as (T & F & _); auto.
    intros i Li. simpl in Hl. rewrite Hl, loop_heap_length in Li. auto.
Qed.

Lemma updateFiles_leaves_files_marked_uploaded_witness :
  let uploads := [pending_file "a.txt" "updated"] in
  let run := updateFiles api_B (only_uploads uploads) [] (mkOptions "m") (world_B []) in
  (forall i, i < 1 ->
             file_upload (file_at uploads i) = false ->
             file_uploaded (file_at (heap (snd run)) i) = true) /\
  ((forall i, i < 1 -> file_upload (file_at uploads i) = false) ->
   loop_fileTree (loop api_B (heap (snd run))) = [] /\
   loop_files (loop api_B (heap (snd run))) = []).
Proof.
  apply (updateFiles_leaves_files_marked_uploaded api_B
           [pending_file "a.txt" "updated"] None None [] (mkOptions "m") (world_B [])).
  reflexivity.
Defined.

(** ** The directory tree of [updateFiles] *)









(** ** Slashes in paths *)



























(** ** A directory that holds a key [file] *)

Lemma NoDup_map_eq {A B} (f : A -> B) l x y :
  NoDup (map f l) -> In x l -> In y l -> f x = f y -> x = y.
Proof.
  induction l as [|a l IH]; simpl; [contradiction|].
  intros N [->|Ix] [->|Iy] E; auto; inversion N as [|? ? Ha Hl]; subst.
  - exfalso. apply Ha. rewrite E. now apply in_map.
  - exfalso. apply Ha. rewrite <- E. now apply in_map.
  - auto.
Qed.

Lemma has_path_In p es :
  has_path p es = true -> exists e, In e es /\ entry_path e = p.
Proof.
  unfold has_path. intros H. apply existsb_exists in H.
  destruct H as (e & I & E). exists e. split; auto.
  now apply String.eqb_eq.
Qed.

(** X19: a directory with a file named [file] is taken for a file.  The
    merge tells a file from a directory by [fileOrDir.file]; for a nested
    object that holds a key ["file"] this is the object of that key, so
    the merge pushes one blob entry for the directory, with the [sha]
    that the nested object happens to have (none, or the object of a key
    ["sha"]), and starts no merge into it. *)
Theorem updateTree_takes_directory_with_file_key_for_a_file :
  forall this h fileTree T k ps x,
    NoDup (keys fileTree) ->
    NoDup (map entry_path T) ->
    get_prop k fileTree = Some (Dir ps) ->
    get_prop "file" ps = Some x ->
    inherited k = false ->
    let members := merge_members this h (as_pending this fileTree) T in
    (exists mode type,
        In (Literal (Entry k mode type
                           (match get_prop "sha" ps with
                            | Some n => ShaObject n
                            | None => ShaUndefined
                            end)))
           members) /\
    forall sha v run, ~ In (Promise sha k v run) members.
Proof.
  intros this h fileTree T k ps x NK NT G Gf Ni members.
  assert (F : file_flag h (Dir ps) = true).
  { unfold file_flag. simpl. now rewrite Gf. }
  assert (L : exists mode type,
             In (Literal (Entry k mode type (sha_of h (Dir ps)))) members).
  { destruct (has_path k T) eqn:P.
    - apply has_path_In in P. destruct P as (obj & Io & <-).
      exists (entry_mode obj), (entry_type obj).
      unfold members, merge_members. apply in_or_app. left.
      rewrite <- (pushed_file h (Some (entry_sha obj)) (entry_path obj)
                              (entry_mode obj) (entry_type obj) (Dir ps)
                              (fun s p => updateTree this s p (Dir ps)) F).
      apply In_existing_pass; auto.
      rewrite get_prop_as_pending, G. reflexivity.
    - exists "100644", "blob".
      pose proof (new_key_pushed this h fileTree T k (Dir ps) G P Ni) as I.
      now rewrite (pushed_file _ _ _ _ _ _ _ F) in I. }
  split; [exact L|].
  intros sha v run I. destruct L as (mode & type & L).
  assert (E : Literal (Entry k mode type (sha_of h (Dir ps))) = Promise sha k v run).
  { apply (NoDup_map_eq member_path members); auto.
    apply merge_members_distinct; auto. now rewrite keys_as_pending. }
  discriminate.
Qed.

Lemma updateTree_takes_directory_with_file_key_for_a_file_witness :
  let fileTree := [("docs", Dir [("file", File 0 [])])] in
  let members := merge_members api_B heap_docs (as_pending api_B fileTree) [] in
  (exists mode type, In (Literal (Entry "docs" mode type ShaUndefined)) members) /\
  forall sha v run, ~ In (Promise sha "docs" v run) members.
Proof.
  apply (updateTree_takes_directory_with_file_key_for_a_file api_B heap_docs
           [("docs", Dir [("file", File 0 [])])] [] "docs" [("file", File 0 [])]
           (File 0 [])).
  - simpl. repeat constructor. simpl. tauto.
  - constructor.
  - reflexivity.
  - reflexivity.
  - reflexivity.
Defined.
